(** * Control-flow graph of an Intcode program

    Shallow embedding of [2019/lib/intcode_to_dot.py]: [breaks_basic_block],
    [cfg] (the decoding loop, the marking of heads, the partition into
    blocks, the edges and the calls that build the graph), [disassemble]
    and the default name of the output file; and the properties of the
    blocks, of the edges and of the labels.

    The Python code decodes the program into [Op] objects, attaches the
    attributes [head], [tail], [jump_addr] and [block_id] to them, and keeps
    references to the same objects in three containers ([ops], [addr_to_op]
    and the blocks).  The embedding keeps that sharing: objects live in a
    heap (a list), a reference is an index into it, and the containers hold
    references. *)

From Stdlib Require Import Ascii.
From stdpp Require Import gmap strings list fin_maps pretty.

(** ** Decoded instructions *)

(** The [intcode] library ([from intcode import *]) is not among the
    sources; its [Op] objects are modelled through what this file reads of
    them.  [OpClass] is the class of an object as the code inspects it with
    [type(op)]: [OpHlt] in [cfg], [OpInvalid] in [disassemble]; every other
    class is [OpOther]. *)
Inductive OpClass : Type :=
  | OpHlt
  | OpInvalid
  | OpOther.

#[global] Instance OpClass_eq_dec : EqDecision OpClass.
Proof. solve_decision. Defined.

(** The attributes of a decoded instruction ([Op.fromcode]) that the code
    reads: [op.pc], [op.length], [op.mnemonic], [op.args], [op.argmodes] and
    its class. *)
Record Op : Type := mkOp {
  pc       : Z;
  oplength : Z;
  mnemonic : string;
  args     : list Z;
  argmodes : list Z;
  optype   : OpClass
}.

(** An [Op] object together with the attributes that [cfg] sets on it.
    [jump_addr] and [block_id] do not exist until they are assigned. *)
Record OpObj : Type := mkObj {
  op        : Op;
  head      : bool;
  tail      : bool;
  jump_addr : option Z;
  block_id  : option nat
}.

Definition set_head (o : OpObj) : OpObj :=
  mkObj (op o) true (tail o) (jump_addr o) (block_id o).

Definition set_jump_addr (a : Z) (o : OpObj) : OpObj :=
  mkObj (op o) (head o) (tail o) (Some a) (block_id o).

Definition set_block_id (b : nat) (o : OpObj) : OpObj :=
  mkObj (op o) (head o) (tail o) (jump_addr o) (Some b).

(** [J_UNCONDITIONAL, J_TRUE, J_FALSE = range(3)] *)
Inductive JKind : Type :=
  | J_UNCONDITIONAL
  | J_TRUE
  | J_FALSE.

#[global] Instance JKind_eq_dec : EqDecision JKind.
Proof. solve_decision. Defined.

(** An edge [(src, dst, kind)]. *)
Definition Edge : Type := nat * nat * JKind.

Definition e_src (e : Edge) : nat := e.1.1.
Definition e_dst (e : Edge) : nat := e.1.2.
Definition e_kind (e : Edge) : JKind := e.2.

(** The variables of [cfg] that the graph is built from. *)
Record CfgResult : Type := mkResult {
  r_heap       : list OpObj;
  r_addr_to_op : gmap Z nat;
  r_ops        : list nat;
  r_blocks     : list (list nat);
  r_edges      : list Edge
}.

(** A Python [for] loop whose body may raise: the state is threaded through
    the elements in order, and the first failure aborts the loop. *)
Fixpoint for_each {A St : Type} (body : St → A → option St) (l : list A) (s : St)
    : option St :=
  match l with
  | [] => Some s
  | x :: l' => s' ← body s x; for_each body l' s'
  end.

Section Cfg.

(** Two names of the [intcode] library, which is not part of the sources:
    the constant [ARGMODE_IMMEDIATE] and the method [Op.decode_arg]. *)
Variable ARGMODE_IMMEDIATE : Z.
Variable decode_arg : Op → nat → Z.

(** [op.mnemonic in ('jnz', 'jz') and op.argmodes[1] == ARGMODE_IMMEDIATE];
    [None] is the [IndexError] of [argmodes[1]]. *)
Definition breaks_basic_block (o : Op) : option bool :=
  if bool_decide (mnemonic o ∈ ["jnz"; "jz"]%string) then
    m ← argmodes o !! 1%nat;
    Some (bool_decide (m = ARGMODE_IMMEDIATE))
  else Some false.

(** *** The decoding loop (lines 77-83)

    The input of the embedding is the stream of instructions that
    [Op.fromcode] yields while the loop advances [vm.pc].  Each object is
    allocated at the end of the heap. *)
Definition decode_step (st : list OpObj * gmap Z nat * list nat) (o : Op)
    : option (list OpObj * gmap Z nat * list nat) :=
  let '(h, addr_to_op, ops) := st in
  t ← breaks_basic_block o;
  let r := length h in
  Some (h ++ [mkObj o false t None None], <[pc o := r]> addr_to_op, ops ++ [r]).

(** *** Block heads (lines 85-96) *)

(** [ops[0].head = True] *)
Definition mark_first (ops : list nat) (h : list OpObj) : option (list OpObj) :=
  r ← ops !! 0%nat; Some (alter set_head r h).

(** [if prev.tail: cur.head = True] *)
Definition mark_after_tail (h : list OpObj) (pair : nat * nat)
    : option (list OpObj) :=
  let '(prev, cur) := pair in
  p ← h !! prev;
  if tail p then Some (alter set_head cur h) else Some h.

(** Body of the loop over [filter(attrgetter('tail'), ops)]; the filter is
    lazy, so [tail] is read when the loop reaches the object. *)
Definition mark_target (addr_to_op : gmap Z nat) (h : list OpObj) (r : nat)
    : option (list OpObj) :=
  o ← h !! r;
  if tail o then
    let a := decode_arg (op o) 1 in
    let h' := alter (set_jump_addr a) r h in
    match addr_to_op !! a with
    | Some dst => Some (alter set_head dst h')
    | None => Some h'
    end
  else Some h.

(** *** Partition into blocks (lines 98-116) *)

Definition partition_step
    (st : list OpObj * list (list nat) * option (list nat) * nat) (r : nat)
    : option (list OpObj * list (list nat) * option (list nat) * nat) :=
  let '(h, blocks, cur_block, cur_block_id) := st in
  o ← h !! r;
  let h' := alter (set_block_id cur_block_id) r h in
  if head o then
    let blocks' :=
      match cur_block with
      | Some (x :: b) => blocks ++ [x :: b]
      | _ => blocks
      end in
    Some (h', blocks', Some [r], S cur_block_id)
  else
    match cur_block with
    | Some b => Some (h', blocks, Some (b ++ [r]), cur_block_id)
    | None => None
    end.

(** [if cur_block: blocks.append(cur_block)] *)
Definition close_block (blocks : list (list nat)) (cur_block : option (list nat))
    : list (list nat) :=
  match cur_block with
  | Some (x :: b) => blocks ++ [x :: b]
  | _ => blocks
  end.

(** *** Edges (lines 118-133) *)

(** The edges that one iteration of the loop appends. *)
Definition edges_of (h : list OpObj) (addr_to_op : gmap Z nat)
    (i : nat) (prev cur : list nat) : option (list Edge) :=
  prev_r ← last prev;
  prev_op ← h !! prev_r;
  if bool_decide (optype (op prev_op) = OpHlt) then Some []
  else if tail prev_op then
    a ← jump_addr prev_op;
    taken ← match addr_to_op !! a with
            | Some d =>
                dst_op ← h !! d;
                dst ← block_id dst_op;
                Some [(i, dst, J_TRUE)]
            | None => Some []
            end;
    c ← cur !! 0%nat;
    cur_op ← h !! c;
    let kind := if head cur_op then J_FALSE else J_UNCONDITIONAL in
    Some (taken ++ [(i, S i, kind)])
  else Some [(i, S i, J_UNCONDITIONAL)].

Definition edge_step (h : list OpObj) (addr_to_op : gmap Z nat)
    (edges : list Edge) (x : nat * (list nat * list nat)) : option (list Edge) :=
  let '(i, (prev, cur)) := x in
  new ← edges_of h addr_to_op i prev cur;
  Some (edges ++ new).

(** *** [cfg]

    The result holds the variables of [cfg] as they are when the graph is
    handed to [pygraphviz]: the heap of objects, [addr_to_op], [ops], the
    blocks (lists of references) and the edges.  [None] stands for an
    uncaught exception. *)
Definition cfg (decoded : list Op) : option CfgResult :=
  '(h, addr_to_op, ops) ← for_each decode_step decoded ([], ∅, []);
  h ← mark_first ops h;
  h ← for_each mark_after_tail (zip ops (drop 1 ops)) h;
  h ← for_each (mark_target addr_to_op) ops h;
  '(h, blocks, cur_block, _) ← for_each partition_step ops (h, [], None, 0%nat);
  let blocks := close_block blocks cur_block in
  edges ← for_each (edge_step h addr_to_op)
            (zip (seq 0 (length blocks)) (zip blocks (drop 1 blocks))) [];
  Some (mkResult h addr_to_op ops blocks edges).

End Cfg.

(** ** From the program to the graph *)

Section Program.

Variable ARGMODE_IMMEDIATE : Z.
Variable decode_arg : Op → nat → Z.

(** [Op.fromcode(vm, pc)], of the missing [intcode] library, for a [vm]
    whose [code] is the given list. *)
Variable fromcode : list Z → Z → Op.

(** The loop [while vm.pc < len(vm.code)] of lines 77-83, with its body:
    decode at [vm.pc], attach [head] and [tail], store the object, advance
    [vm.pc] by [op.length].  [fuel] bounds the number of iterations: the
    result is [None] when the loop is still running after [fuel] of them,
    and [Some None] when [breaks_basic_block] has raised. *)
Fixpoint decode_loop (fuel : nat) (code : list Z) (pc : Z)
    (st : list OpObj * gmap Z nat * list nat)
    : option (option (list OpObj * gmap Z nat * list nat)) :=
  if bool_decide (pc < Z.of_nat (length code))%Z then
    match fuel with
    | O => None
    | S fuel' =>
        let o := fromcode code pc in
        match decode_step ARGMODE_IMMEDIATE st o with
        | Some st' => decode_loop fuel' code (pc + oplength o)%Z st'
        | None => Some None
        end
    end
  else Some (Some st).

(** Lines 85-133 of [cfg], from the state that the decoding loop leaves. *)
Definition cfg_from (st : list OpObj * gmap Z nat * list nat)
    : option CfgResult :=
  let '(h, addr_to_op, ops) := st in
  h ← mark_first ops h;
  h ← for_each mark_after_tail (zip ops (drop 1 ops)) h;
  h ← for_each (mark_target decode_arg addr_to_op) ops h;
  '(h, blocks, cur_block, _) ← for_each partition_step ops (h, [], None, 0%nat);
  let blocks := close_block blocks cur_block in
  edges ← for_each (edge_step h addr_to_op)
            (zip (seq 0 (length blocks)) (zip blocks (drop 1 blocks))) [];
  Some (mkResult h addr_to_op ops blocks edges).

(** Modelled from the spec: [IntcodeVM] belongs to the missing library;
    decoding starts at address 0 of the program.

    [cfg(program, out_fname)] up to the point where the graph is built. *)
Definition cfg_program (fuel : nat) (program : list Z)
    : option (option CfgResult) :=
  st ← decode_loop fuel program 0 ([], ∅, []);
  Some (st ≫= cfg_from).

(** The instructions that the loop visits from [pc] to the end of the code. *)
Fixpoint chain (code : list Z) (pc : Z) (decoded : list Op) : Prop :=
  match decoded with
  | [] => (Z.of_nat (length code) ≤ pc)%Z
  | o :: rest =>
      (pc < Z.of_nat (length code))%Z ∧ o = fromcode code pc
      ∧ chain code (pc + oplength o) rest
  end.

End Program.

(** ** The name of the output file (lines 170-176) *)

(** [s.rfind(c)]: the highest index of [c] in [s], or -1. *)
Fixpoint rfind (s : string) (c : Ascii.ascii) : Z :=
  match s with
  | EmptyString => (-1)%Z
  | String x s' =>
      let r := rfind s' c in
      if bool_decide (r = (-1)%Z) then
        if bool_decide (x = c) then 0%Z else (-1)%Z
      else (r + 1)%Z
  end.

(** [ext = in_fname.rfind('.')] and
    [(in_fname if ext == -1 else in_fname[:ext]) + '.dot'] *)
Definition out_fname (in_fname : string) : string :=
  let ext := rfind in_fname "."%char in
  (if bool_decide (ext = (-1)%Z) then in_fname
   else String.substring 0 (Z.to_nat ext) in_fname) +:+ ".dot".

(** ** Labels and the graph (lines 22-69 and 135-143) *)

(** A value of the dictionary [fmtargs]: [op.pc] is an [int], every other
    value is a [str]. *)
Inductive FmtVal : Type :=
  | VInt (z : Z)
  | VStr (s : string).

(** The double quote. *)
Definition dq : string := String "034"%char EmptyString.

Fixpoint spaces (n : nat) : string :=
  match n with
  | O => EmptyString
  | S n' => String " "%char (spaces n')
  end.

(** The alignments [>w] and [<w] of a format specification: the text is
    padded with spaces to the width, never truncated. *)
Definition rjust (w : nat) (s : string) : string :=
  spaces (w - String.length s) +:+ s.
Definition ljust (w : nat) (s : string) : string :=
  s +:+ spaces (w - String.length s).

(** [<font color="color">body</font>] and [<br align="left"/>] *)
Definition font (color body : string) : string :=
  "<font color=" +:+ dq +:+ color +:+ dq +:+ ">" +:+ body +:+ "</font>".
Definition br_left : string := "<br align=" +:+ dq +:+ "left" +:+ dq +:+ "/>".

(** The replacement fields [{k}], [{k:>wd}] and [{k:>ws}], [{k:<ws}] of
    [str.format] on the dictionary [d]; [None] is the [KeyError] of a missing key or the
    [ValueError] of a value of the wrong type. *)
Definition field (d : gmap string FmtVal) (k : string) : option string :=
  v ← d !! k;
  Some (match v with VInt z => pretty z | VStr s => s end).

Definition field_d (w : nat) (d : gmap string FmtVal) (k : string)
    : option string :=
  v ← d !! k;
  match v with VInt z => Some (rjust w (pretty z)) | VStr _ => None end.

Definition field_s (just : nat → string → string) (w : nat)
    (d : gmap string FmtVal) (k : string) : option string :=
  v ← d !! k;
  match v with VStr s => Some (just w s) | VInt _ => None end.

(** The part of a format for argument [i]:
    [ <font color="{cargI}">{argI:>8s}</font>], after a space. *)
Definition fmt_arg (d : gmap string FmtVal) (i : nat) : option string :=
  c ← field d ("carg" +:+ pretty i);
  a ← field_s rjust 8 d ("arg" +:+ pretty i);
  Some (" " +:+ font c a).

(** [fmts[n].format] on the dictionary [d], for [n] from 0 to 3.  The four formats start with
    [<font color="{cmain}"><font color="{cpc}">{pc:>4d}:</font>  <font
    color="{cmnemonic}">{mnemonic:<4s}</font>]; the format 0 goes on with
    [</font>{raw}], the others with their [n] arguments and [</font>]; all
    end with [<br align="left"/>]. *)
Definition fmt (n : nat) (d : gmap string FmtVal) : option string :=
  cmain ← field d "cmain";
  cpc ← field d "cpc";
  p ← field_d 4 d "pc";
  cmnemonic ← field d "cmnemonic";
  m ← field_s ljust 4 d "mnemonic";
  let front := font cpc (p +:+ ":") +:+ "  " +:+ font cmnemonic m in
  match n with
  | O => raw ← field d "raw"; Some (font cmain front +:+ raw +:+ br_left)
  | _ =>
      argl ← mapM (fmt_arg d) (seq 1 n);
      Some (font cmain (front +:+ String.concat EmptyString argl) +:+ br_left)
  end.

Definition fmts : list (gmap string FmtVal → option string) :=
  [fmt 0; fmt 1; fmt 2; fmt 3].

(** The dictionary [fmtargs] before the loop. *)
Definition fmtargs0 : gmap string FmtVal :=
  <["carg3" := VStr "blue4"]> (<["carg2" := VStr "blue4"]>
  (<["carg1" := VStr "blue4"]> (<["cmnemonic" := VStr "blue4"]>
  (<["cpc" := VStr "gray50"]> (<["cmain" := VStr "blue4"]> ∅))))).

(** The part of [fmtargs] that no iteration changes. *)
Definition fmtargs_fixed : gmap string FmtVal :=
  <["cpc" := VStr "gray50"]> (<["cmain" := VStr "blue4"]> ∅).

(** Key [k] of the dictionary holds a [str]. *)
Definition is_str (d : gmap string FmtVal) (k : string) : Prop :=
  ∃ s, d !! k = Some (VStr s).

(** [l[i]] on a Python list: a negative index counts from the end. *)
Definition py_index (l : list Z) (i : Z) : option Z :=
  if bool_decide (0 ≤ i)%Z then l !! Z.to_nat i
  else if bool_decide (- Z.of_nat (length l) ≤ i)%Z
       then l !! Z.to_nat (Z.of_nat (length l) + i)
       else None.

(** [COLORS = ('grey30', 'green3', 'red')], indexed by the kind of an edge. *)
Definition COLORS : list string := ["grey30"; "green3"; "red"]%string.

Definition J_index (k : JKind) : nat :=
  match k with
  | J_UNCONDITIONAL => 0
  | J_TRUE => 1
  | J_FALSE => 2
  end.

(** The calls [G.add_node(i, label=...)] and [G.add_edge(src, dst,
    color=...)], in the order in which [cfg] makes them. *)
Record Graph : Type := mkGraph {
  g_nodes : list (nat * string);
  g_edges : list (nat * nat * string)
}.

Section Disassemble.

(** The three addressing modes of the missing [intcode] library, and the
    code of the machine ([op.vm.code]). *)
Variable ARGMODE_IMMEDIATE : Z.
Variable ARGMODE_POSITIONAL : Z.
Variable ARGMODE_RELATIVE : Z.
Variable code : list Z.

(** Body of the loop over [enumerate(zip(op.args, op.argmodes), 1)]. *)
Definition arg_step (d : gmap string FmtVal) (x : nat * (Z * Z))
    : gmap string FmtVal :=
  let '(i, (a, m)) := x in
  if bool_decide (m = ARGMODE_IMMEDIATE) then
    <["carg" +:+ pretty i := VStr "blue3"]>
      (<["arg" +:+ pretty i := VStr (pretty a +:+ " ")]> d)
  else if bool_decide (m = ARGMODE_POSITIONAL) then
    <["carg" +:+ pretty i := VStr "indigo"]>
      (<["arg" +:+ pretty i := VStr ("[" +:+ pretty a +:+ "]")]> d)
  else if bool_decide (m = ARGMODE_RELATIVE) then
    <["carg" +:+ pretty i := VStr "purple"]>
      (<["arg" +:+ pretty i :=
           VStr ("[r" +:+ (if bool_decide (0 ≤ a)%Z then "+" else EmptyString)
                      +:+ pretty a +:+ "]")]> d)
  else d.

(** Body of the loop of [disassemble]: the state is [fmtargs] and [lines]. *)
Definition disassemble_step (st : gmap string FmtVal * list string) (o : Op)
    : option (gmap string FmtVal * list string) :=
  let '(d, lines) := st in
  let l := length (args o) in
  let d := <["pc" := VInt (pc o)]> d in
  let d := <["mnemonic" := VStr (mnemonic o)]> d in
  let d := <["raw" := VStr EmptyString]> d in
  d ← (if bool_decide (optype o = OpInvalid) then
         v ← py_index code (pc o);
         Some (<["raw" := VStr (" " +:+ font "gray" (pretty v))]>
                 (<["cmnemonic" := VStr "crimson"]> d))
       else Some (<["cmnemonic" := VStr "blue3"]> d));
  let d := foldl arg_step d
             (zip (seq 1 (length (args o))) (zip (args o) (argmodes o))) in
  f ← fmts !! l;
  line ← f d;
  Some (d, lines ++ [line]).

(** [disassemble(block)] *)
Definition disassemble (block : list Op) : option string :=
  '(_, lines) ← for_each disassemble_step block (fmtargs0, []);
  Some ("<" +:+ String.concat EmptyString lines +:+ ">").

(** Lines 139-143 of [cfg]: a node per block, labelled by its listing, and
    the edges with their colours. *)
Definition draw (res : CfgResult) : option Graph :=
  nodes ← mapM (λ ib : nat * list nat,
                  block ← mapM (λ r, op <$> r_heap res !! r) ib.2;
                  label ← disassemble block;
                  Some (ib.1, label))
               (zip (seq 0 (length (r_blocks res))) (r_blocks res));
  edges ← mapM (λ e : Edge,
                  color ← COLORS !! J_index (e_kind e);
                  Some (e_src e, e_dst e, color))
               (r_edges res);
  Some (mkGraph nodes edges).

(** An instruction as the decoder of the library yields it: at most three
    arguments, a known mode for each, and, for an invalid opcode, an
    address inside the code. *)
Definition renderable (o : Op) : Prop :=
  length (args o) ≤ 3
  ∧ length (args o) ≤ length (argmodes o)
  ∧ Forall (λ m, m = ARGMODE_IMMEDIATE ∨ m = ARGMODE_POSITIONAL
                 ∨ m = ARGMODE_RELATIVE) (argmodes o)
  ∧ (optype o = OpInvalid → is_Some (py_index code (pc o))).

End Disassemble.

#[global] Instance renderable_dec (imm pos rel : Z) (code : list Z) (o : Op) :
  Decision (renderable imm pos rel code o).
Proof. unfold renderable. apply _. Defined.

(** ** Sample programs *)

(** Modelled from the spec: [Op.decode_arg] belongs to the missing [intcode]
    library.  With immediate addressing the value of an argument is the
    operand itself, and [decode_arg] is only called on tails, whose second
    argument is immediate.  The sample programs take 1 for
    [ARGMODE_IMMEDIATE]. *)
Definition imm_arg (o : Op) (i : nat) : Z := default 0%Z (args o !! i).

Definition op_add (a : Z) : Op :=
  mkOp a 4 "add"%string [0; 0; 0]%Z [0; 0; 0]%Z OpOther.
Definition op_jnz (a c t : Z) : Op :=
  mkOp a 3 "jnz"%string [c; t]%Z [1; 1]%Z OpOther.
Definition op_jz_pos (a c t : Z) : Op :=
  mkOp a 3 "jz"%string [c; t]%Z [1; 0]%Z OpOther.
Definition op_hlt (a : Z) : Op := mkOp a 1 "hlt"%string [] [] OpHlt.
Definition op_invalid (a : Z) : Op := mkOp a 1 "???"%string [] [] OpInvalid.

(** Scenario A of the specification. *)
Definition prog_a : list Op := [op_add 0; op_add 4; op_jnz 8 1 0; op_hlt 11].

(** A jump onto an invalid opcode. *)
Definition prog_invalid : list Op := [op_jnz 0 1 3; op_invalid 3; op_add 4].

(** A jump to the next instruction. *)
Definition prog_next : list Op := [op_jnz 0 1 3; op_hlt 3].

(** A program that is one jump to itself. *)
Definition prog_self : list Op := [op_jnz 0 1 0].

(** A jump into the middle of an instruction (Scenario C). *)
Definition prog_mid : list Op := [op_jnz 0 1 5; op_add 3; op_hlt 7].

(** A toy decoder to run the decoding loop on: it knows [hlt] (99) and
    [jnz] with two immediate arguments (1105); every other cell is an
    invalid opcode. *)
Definition toy_fromcode (code : list Z) (a : Z) : Op :=
  match code !! Z.to_nat a with
  | Some v =>
      if bool_decide (v = 99%Z) then op_hlt a
      else if bool_decide (v = 1105%Z) then
        op_jnz a (default 0%Z (code !! Z.to_nat (a + 1)))
                 (default 0%Z (code !! Z.to_nat (a + 2)))
      else op_invalid a
  | None => op_invalid a
  end.

(** A decoder whose instructions have length 0. *)
Definition stuck_fromcode (code : list Z) (a : Z) : Op :=
  mkOp a 0 "nop"%string [] [] OpOther.

(** An instruction with four arguments. *)
Definition op_wide (a : Z) : Op :=
  mkOp a 5 "wide"%string [1; 2; 3; 4]%Z [0; 0; 0; 0]%Z OpOther.

(** [1105,1,0,99]: a jump to itself, then [hlt]. *)
Definition code_loop : list Z := [1105; 1; 0; 99]%Z.

(** ** Specification of [cfg] *)

(** What the decoder guarantees of a conditional jump: it has its two
    arguments, so [argmodes[1]] exists. *)
Definition jumps_decoded (o : Op) : Prop :=
  mnemonic o ∈ ["jnz"; "jz"]%string → 1 < length (argmodes o).

#[global] Instance jumps_decoded_dec (o : Op) : Decision (jumps_decoded o).
Proof. unfold jumps_decoded. apply _. Defined.

Ltac by_compute := apply (bool_decide_unpack _); vm_compute; exact I.

Section CfgSpec.

Variable ARGMODE_IMMEDIATE : Z.
Variable decode_arg : Op → nat → Z.

Abbreviation breaks := (breaks_basic_block ARGMODE_IMMEDIATE).

(** Instruction [j] of the stream is a tail. *)
Definition tail_at (decoded : list Op) (j : nat) : Prop :=
  ∃ o, decoded !! j = Some o ∧ breaks o = Some true.

(** The dictionary built by [addr_to_op[op.pc] = op]: an address is mapped
    to the last instruction that was stored under it. *)
Definition addr_map_of (decoded : list Op) (m : gmap Z nat) : Prop :=
  ∀ a j, m !! a = Some j ↔
    ∃ o, decoded !! j = Some o ∧ pc o = a ∧
         ∀ j' o', j < j' → decoded !! j' = Some o' → pc o' ≠ a.

(** The object that the decoding loop creates for an instruction. *)
Definition fresh_obj (o : Op) (obj : OpObj) : Prop :=
  ∃ t, breaks o = Some t ∧ obj = mkObj o false t None None.

(** The heap holds one object per instruction, in order; [op] and [tail]
    are what the decoding loop stored, and [P] describes the attributes
    that the later loops assign. *)
Definition objs (decoded : list Op) (P : nat → OpObj → Prop) (h : list OpObj)
    : Prop :=
  length h = length decoded ∧
  ∀ j obj, h !! j = Some obj →
    decoded !! j = Some (op obj) ∧ breaks (op obj) = Some (tail obj) ∧ P j obj.

Definition keeps_op (f : OpObj → OpObj) : Prop :=
  ∀ obj, op (f obj) = op obj ∧ tail (f obj) = tail obj.

(** The instructions that are marked as heads. *)
Definition head_at (decoded : list Op) (m : gmap Z nat) (j : nat) : Prop :=
  j = 0 ∨ (∃ p, j = S p ∧ tail_at decoded p) ∨
  (∃ t o, decoded !! t = Some o ∧ breaks o = Some true
          ∧ m !! decode_arg o 1 = Some j).

Definition unset (obj : OpObj) : Prop :=
  jump_addr obj = None ∧ block_id obj = None.

(** The attributes of an object once the heads are marked. *)
Definition attrs (decoded : list Op) (m : gmap Z nat) (j : nat) (obj : OpObj)
    : Prop :=
  jump_addr obj = (if tail obj then Some (decode_arg (op obj) 1) else None)
  ∧ (head obj = true ↔ head_at decoded m j).

(** Block [bi] starts with a head, whose [block_id] is [bi]; its other
    members are not heads, and their [block_id] is [bi + 1]. *)
Definition block_ok (h : list OpObj) (bi : nat) (blk : list nat) : Prop :=
  ∃ r rest, blk = r :: rest
    ∧ (∃ obj, h !! r = Some obj ∧ head obj = true ∧ block_id obj = Some bi)
    ∧ ∀ r', r' ∈ rest →
        ∃ obj, h !! r' = Some obj ∧ head obj = false ∧ block_id obj = Some (S bi).

(** The blocks cut the first [k] references into consecutive runs. *)
Definition blocks_ok (h : list OpObj) (k : nat) (bl : list (list nat)) : Prop :=
  concat bl = seq 0 k ∧ ∀ bi blk, bl !! bi = Some blk → block_ok h bi blk.

(** The edges that the loop appends for block [i]. *)
Definition block_edges (h : list OpObj) (m : gmap Z nat) (bl : list (list nat))
    (i : nat) : list Edge :=
  default [] (prev ← bl !! i; cur ← bl !! S i; edges_of h m i prev cur).

(** The taken-branch edge of a tail [obj] that ends block [i]. *)
Definition taken_edges (h : list OpObj) (m : gmap Z nat) (bl : list (list nat))
    (i : nat) (obj : OpObj) (taken : list Edge) : Prop :=
  match m !! decode_arg (op obj) 1 with
  | None => taken = []
  | Some d =>
      ∃ dobj bd rest, h !! d = Some dobj ∧ head dobj = true
        ∧ block_id dobj = Some bd ∧ bl !! bd = Some (d :: rest)
        ∧ taken = [(i, bd, J_TRUE)]
  end.

(** What [cfg] has built when it returns. *)
Record cfg_ok (decoded : list Op) (res : CfgResult) : Prop := {
  ok_ops : r_ops res = seq 0 (length decoded);
  ok_map : addr_map_of decoded (r_addr_to_op res);
  ok_heap : objs decoded (attrs decoded (r_addr_to_op res)) (r_heap res);
  ok_blocks : blocks_ok (r_heap res) (length decoded) (r_blocks res);
  ok_edges :
    r_edges res =
    concat (block_edges (r_heap res) (r_addr_to_op res) (r_blocks res)
              <$> seq 0 (length (r_blocks res) - 1))
}.

(** ** Loops *)

(** A loop whose body keeps an invariant, indexed by the number of elements
    already visited, and cannot fail under it, runs to the end. *)
Lemma for_each_inv {A St : Type} (Inv : nat → St → Prop)
    (body : St → A → option St) (l : list A) (s : St) :
  Inv 0 s →
  (∀ k x s, l !! k = Some x → Inv k s → ∃ s', body s x = Some s' ∧ Inv (S k) s') →
  ∃ s', for_each body l s = Some s' ∧ Inv (length l) s'.
Proof.
  revert Inv s. induction l as [|x l IH]; intros Inv s H0 Hstep; simpl.
  - eauto.
  - destruct (Hstep 0 x s eq_refl H0) as (s1 & -> & H1). simpl.
    apply (IH (λ k, Inv (S k))); [done|].
    intros k y s2 Hk. apply (Hstep (S k)). done.
Qed.

Lemma lookup_alter_Some {A : Type} (f : A → A) (i j : nat) (l : list A) (y : A) :
  alter f i l !! j = Some y →
  (j ≠ i ∧ l !! j = Some y) ∨ (j = i ∧ ∃ x, l !! j = Some x ∧ y = f x).
Proof.
  destruct (decide (j = i)) as [->|Hne].
  - rewrite list_lookup_alter_eq. destruct (l !! i) as [x|] eqn:E; simpl; [|done].
    intros [= <-]. right. eauto.
  - rewrite list_lookup_alter_ne; [|done]. eauto.
Qed.

Lemma elem_of_concat {A : Type} (x : A) (ls : list (list A)) :
  x ∈ concat ls ↔ ∃ l, l ∈ ls ∧ x ∈ l.
Proof.
  rewrite list_elem_of_In, in_concat. setoid_rewrite list_elem_of_In. done.
Qed.

Lemma zip_seq_drop_lookup (n k : nat) (x : nat * nat) :
  zip (seq 0 n) (drop 1 (seq 0 n)) !! k = Some x → x = (k, S k) ∧ S k < n.
Proof.
  intros H. apply lookup_zip_with_Some in H as (a & b & -> & Ha & Hb).
  apply lookup_seq in Ha as [-> _].
  rewrite lookup_drop in Hb. apply lookup_seq in Hb as [-> Hlt].
  split; [done | lia].
Qed.

Lemma breaks_is_Some (o : Op) : jumps_decoded o → is_Some (breaks o).
Proof.
  unfold jumps_decoded, breaks_basic_block. intros H.
  case_bool_decide as Hm; [|eauto].
  destruct (lookup_lt_is_Some_2 (argmodes o) 1 (H Hm)) as [m ->]. simpl. eauto.
Qed.

Lemma addr_map_of_nil : addr_map_of [] ∅.
Proof.
  intros a j. rewrite lookup_empty. split; [done|].
  intros (o & Ho & _). done.
Qed.

Lemma addr_map_of_snoc (l : list Op) (m : gmap Z nat) (x : Op) :
  addr_map_of l m → addr_map_of (l ++ [x]) (<[pc x := length l]> m).
Proof.
  intros IH a j. destruct (decide (pc x = a)) as [<-|Hne].
  - rewrite lookup_insert_eq. split.
    + intros [= <-]. exists x. split; [apply list_lookup_middle; done|].
      split; [done|]. intros j' o' Hlt Hj'.
      apply lookup_lt_Some in Hj'. rewrite length_app in Hj'. simpl in Hj'. lia.
    + intros (o & Ho & Hpc & Hlast).
      apply lookup_snoc_Some in Ho as [[Hlt Ho]|[-> _]]; [|done].
      exfalso. apply (Hlast (length l) x Hlt); [|done].
      apply list_lookup_middle. done.
  - rewrite lookup_insert_ne; [|done]. rewrite (IH a j). split.
    + intros (o & Ho & Hpc & Hlast). exists o.
      split; [by apply lookup_app_l_Some|]. split; [done|].
      intros j' o' Hlt Hj'.
      apply lookup_snoc_Some in Hj' as [[_ Hj']|[_ <-]]; [eauto | congruence].
    + intros (o & Ho & Hpc & Hlast).
      apply lookup_snoc_Some in Ho as [[Hlt Ho]|[_ ->]]; [|done].
      exists o. split; [done|]. split; [done|].
      intros j' o' Hjj Hj'. apply (Hlast j' o' Hjj). by apply lookup_app_l_Some.
Qed.

Lemma last_occurrence (decoded : list Op) (a : Z) :
  a ∈ pc <$> decoded →
  ∃ j o, decoded !! j = Some o ∧ pc o = a ∧
         ∀ j' o', j < j' → decoded !! j' = Some o' → pc o' ≠ a.
Proof.
  induction decoded as [|x l IH] using rev_ind; intros Ha.
  - by apply elem_of_nil in Ha.
  - destruct (decide (pc x = a)) as [Hx|Hx].
    + exists (length l), x. split; [by apply list_lookup_middle|].
      split; [done|]. intros j' o' Hlt Hj'.
      apply lookup_lt_Some in Hj'. rewrite length_app in Hj'. simpl in Hj'. lia.
    + rewrite fmap_app in Ha. apply elem_of_app in Ha as [Ha|Ha].
      * destruct (IH Ha) as (j & o & Ho & Hpc & Hlast). exists j, o.
        split; [by apply lookup_app_l_Some|]. split; [done|].
        intros j' o' Hlt Hj'.
        apply lookup_snoc_Some in Hj' as [[_ Hj']|[_ <-]]; [eauto | done].
      * apply list_elem_of_singleton in Ha. done.
Qed.

(** Every decoded address, and nothing else, is a key of the dictionary. *)
Lemma addr_map_of_dom (decoded : list Op) (m : gmap Z nat) (a : Z) :
  addr_map_of decoded m → (is_Some (m !! a) ↔ a ∈ pc <$> decoded).
Proof.
  intros Hm. split.
  - intros [j Hj]. apply Hm in Hj as (o & Ho & <- & _).
    apply list_elem_of_fmap. exists o. split; [done|].
    by eapply list_elem_of_lookup_2.
  - intros Ha. destruct (last_occurrence _ _ Ha) as (j & Hj).
    exists j. by apply Hm.
Qed.

(** With unique addresses the dictionary is the inverse of [pc]. *)
Lemma addr_map_of_NoDup (decoded : list Op) (m : gmap Z nat) (a : Z) (j : nat) :
  addr_map_of decoded m → NoDup (pc <$> decoded) →
  (m !! a = Some j ↔ ∃ o, decoded !! j = Some o ∧ pc o = a).
Proof.
  intros Hm Hnd. rewrite (Hm a j). split.
  - intros (o & Ho & Hpc & _). eauto.
  - intros (o & Ho & Hpc). exists o. split; [done|]. split; [done|].
    intros j' o' Hlt Hj' Hpc'.
    assert (j = j'); [|lia].
    apply (NoDup_lookup _ _ _ a Hnd); rewrite list_lookup_fmap.
    + by rewrite Ho; simpl; rewrite Hpc.
    + by rewrite Hj'; simpl; rewrite Hpc'.
Qed.

(** *** The decoding loop *)

Lemma decode_loop_spec (decoded : list Op) :
  Forall jumps_decoded decoded →
  ∃ h m,
    for_each (decode_step ARGMODE_IMMEDIATE) decoded ([], ∅, [])
      = Some (h, m, seq 0 (length decoded))
    ∧ Forall2 fresh_obj decoded h ∧ addr_map_of decoded m.
Proof.
  intros Hdec.
  destruct (for_each_inv
    (λ k st, st.2 = seq 0 k ∧ Forall2 fresh_obj (take k decoded) st.1.1
             ∧ addr_map_of (take k decoded) st.1.2)
    (decode_step ARGMODE_IMMEDIATE) decoded ([], ∅, [])) as (st & Hrun & Hinv).
  - simpl. rewrite take_0. split; [done|]. split; [constructor|].
    apply addr_map_of_nil.
  - intros k x [[h m] ops] Hk (Hops & Hh & Hm). simpl in *.
    destruct (breaks_is_Some x) as [t Ht].
    { by apply (Forall_lookup_1 _ _ _ _ Hdec Hk). }
    assert (length h = k) as Hlen.
    { apply Forall2_length in Hh. rewrite <- Hh, length_take.
      apply lookup_lt_Some in Hk. lia. }
    rewrite Ht. simpl. eexists. split; [done|]. simpl.
    rewrite (take_S_r _ _ _ Hk), Hlen, Hops.
    split; [symmetry; exact (seq_S k 0)|]. split.
    + apply Forall2_app; [done|]. constructor; [|constructor]. by exists t.
    + replace k with (length (take k decoded)) at 2.
      * by apply addr_map_of_snoc.
      * rewrite length_take. apply lookup_lt_Some in Hk. lia.
  - destruct st as [[h m] ops]. simpl in Hinv. destruct Hinv as (-> & Hh & Hm).
    rewrite firstn_all in Hh, Hm. exists h, m. done.
Qed.

(** *** Heaps of decoded objects *)

Lemma keeps_op_set_head : keeps_op set_head.
Proof. done. Qed.
Lemma keeps_op_set_jump_addr a : keeps_op (set_jump_addr a).
Proof. done. Qed.
Lemma keeps_op_set_block_id b : keeps_op (set_block_id b).
Proof. done. Qed.

Lemma objs_alter decoded (P Q : nat → OpObj → Prop) f i h :
  objs decoded P h → keeps_op f →
  (∀ j obj, j ≠ i → h !! j = Some obj → P j obj → Q j obj) →
  (∀ obj, h !! i = Some obj → P i obj → Q i (f obj)) →
  objs decoded Q (alter f i h).
Proof.
  intros [Hlen Hobj] Hf Hne Heq. split; [by rewrite length_alter|].
  intros j obj Hj. apply lookup_alter_Some in Hj as [[Hji Hj]|[-> (x & Hx & ->)]].
  - destruct (Hobj j obj Hj) as (? & ? & ?). eauto.
  - destruct (Hobj i x Hx) as (? & ? & ?). destruct (Hf x) as [-> ->]. eauto.
Qed.

Lemma objs_weaken decoded (P Q : nat → OpObj → Prop) h :
  objs decoded P h →
  (∀ j obj, h !! j = Some obj → P j obj → Q j obj) →
  objs decoded Q h.
Proof.
  intros [Hlen Hobj] HPQ. split; [done|].
  intros j obj Hj. destruct (Hobj j obj Hj) as (? & ? & ?). eauto.
Qed.

Lemma objs_lookup decoded P h j :
  objs decoded P h → j < length decoded → ∃ obj, h !! j = Some obj.
Proof. intros [Hlen _] Hj. apply lookup_lt_is_Some_2. lia. Qed.

Lemma objs_tail decoded P h j obj :
  objs decoded P h → h !! j = Some obj → (tail obj = true ↔ tail_at decoded j).
Proof.
  intros [_ Hobj] Hj. destruct (Hobj j obj Hj) as (Hd & Hb & _).
  unfold tail_at. split.
  - intros Ht. exists (op obj). by rewrite Hb, Ht.
  - intros (o & Ho & Hbo). congruence.
Qed.

(** *** Block heads *)

Lemma mark_first_spec (decoded : list Op) (h : list OpObj) :
  decoded ≠ [] → Forall2 fresh_obj decoded h →
  ∃ h', mark_first (seq 0 (length decoded)) h = Some h'
    ∧ objs decoded (λ j obj, unset obj ∧ (head obj = true ↔ j = 0)) h'.
Proof.
  intros Hne Hh. unfold mark_first.
  destruct decoded as [|o0 decoded]; [done|]. simpl. eexists. split; [done|].
  apply (objs_alter _ (λ j obj, unset obj ∧ head obj = false)).
  - split; [symmetry; by eapply Forall2_length|].
    intros j obj Hj.
    destruct (Forall2_lookup_r _ _ _ _ _ Hh Hj) as (o & Ho & t & Ht & ->).
    done.
  - apply keeps_op_set_head.
  - intros j obj Hj _ [Hu Hhd]. split; [done|]. rewrite Hhd. naive_solver.
  - intros obj _ [Hu _]. done.
Qed.

Lemma mark_after_tail_spec (decoded : list Op) (h : list OpObj) :
  objs decoded (λ j obj, unset obj ∧ (head obj = true ↔ j = 0)) h →
  ∃ h', for_each mark_after_tail
          (zip (seq 0 (length decoded)) (drop 1 (seq 0 (length decoded)))) h
        = Some h'
    ∧ objs decoded (λ j obj, unset obj ∧
        (head obj = true ↔ j = 0 ∨ ∃ p, j = S p ∧ tail_at decoded p)) h'.
Proof.
  intros Hh.
  destruct (for_each_inv
    (λ k h, objs decoded (λ j obj, unset obj ∧
        (head obj = true ↔ j = 0 ∨ ∃ p, j = S p ∧ p < k ∧ tail_at decoded p)) h)
    mark_after_tail
    (zip (seq 0 (length decoded)) (drop 1 (seq 0 (length decoded)))) h)
    as (h' & Hrun & Hinv).
  - eapply objs_weaken; [done|]. intros j obj _ [Hu Hhd]. split; [done|].
    rewrite Hhd. split; [eauto|]. intros [?|(p & _ & ? & _)]; [done|lia].
  - intros k x h1 Hk Hinv. apply zip_seq_drop_lookup in Hk as [-> Hlt].
    destruct (objs_lookup _ _ _ k Hinv) as [p Hp]; [lia|].
    pose proof (objs_tail _ _ _ _ _ Hinv Hp) as Htl.
    simpl. rewrite Hp. simpl. destruct (tail p) eqn:Et.
    + eexists. split; [done|].
      eapply objs_alter; [done|apply keeps_op_set_head| |].
      * intros j obj Hj _ [Hu Hhd]. split; [done|]. rewrite Hhd.
        split; [naive_solver lia|].
        intros [?|(q & -> & Hq & ?)]; [by left|].
        right. exists q. split; [done|]. split; [lia|done].
      * intros obj _ [Hu _]. split; [done|]. simpl. split; [|done].
        intros _. right. exists k. split; [done|]. split; [lia|]. by apply Htl.
    + eexists. split; [done|].
      eapply objs_weaken; [done|]. intros j obj _ [Hu Hhd]. split; [done|].
      rewrite Hhd. split; [naive_solver lia|].
      intros [?|(q & -> & Hq & Hqt)]; [by left|].
      right. exists q. split; [done|]. split; [|done].
      destruct (decide (q = k)) as [->|]; [|lia].
      apply Htl in Hqt. done.
  - exists h'. split; [done|].
    eapply objs_weaken; [done|]. intros j obj Hj [Hu Hhd]. split; [done|].
    rewrite Hhd. split; [naive_solver|].
    intros [?|(q & -> & Hqt)]; [by left|].
    right. exists q. split; [done|]. split; [|done].
    rewrite length_zip_with, length_drop, length_seq.
    apply lookup_lt_Some in Hj. destruct Hinv as [Hlen _]. lia.
Qed.

Lemma mark_target_spec (decoded : list Op) (m : gmap Z nat) (h : list OpObj) :
  objs decoded (λ j obj, unset obj ∧
    (head obj = true ↔ j = 0 ∨ ∃ p, j = S p ∧ tail_at decoded p)) h →
  ∃ h', for_each (mark_target decode_arg m) (seq 0 (length decoded)) h = Some h'
    ∧ objs decoded (λ j obj,
        jump_addr obj = (if tail obj then Some (decode_arg (op obj) 1) else None)
        ∧ block_id obj = None
        ∧ (head obj = true ↔ head_at decoded m j)) h'.
Proof.
  intros Hh.
  set (hd := λ (k j : nat), j = 0 ∨ (∃ p, j = S p ∧ tail_at decoded p) ∨
    (∃ t o, t < k ∧ decoded !! t = Some o ∧ breaks o = Some true
            ∧ m !! decode_arg o 1 = Some j)).
  set (ja := λ (k j : nat) (obj : OpObj),
    (tail obj = true → j < k → jump_addr obj = Some (decode_arg (op obj) 1))
    ∧ (tail obj = false ∨ k ≤ j → jump_addr obj = None)).
  destruct (for_each_inv
    (λ k h, objs decoded (λ j obj,
        ja k j obj ∧ block_id obj = None ∧ (head obj = true ↔ hd k j)) h)
    (mark_target decode_arg m) (seq 0 (length decoded)) h)
    as (h' & Hrun & Hinv).
  - eapply objs_weaken; [done|]. intros j obj _ [[Hj Hb] Hhd].
    split; [split; [lia|done]|]. split; [done|]. rewrite Hhd. unfold hd.
    split; [naive_solver|]. intros [?|[?|(t & o & ? & _)]]; [by left|by right|lia].
  - intros k x h1 Hk Hinv. apply lookup_seq in Hk as [-> Hlt]. simpl in *.
    destruct (objs_lookup _ _ _ k Hinv) as [o Ho]; [lia|].
    destruct (proj2 Hinv k o Ho) as (Hdo & Hbo & _).
    unfold mark_target. rewrite Ho. simpl. destruct (tail o) eqn:Et.
    + assert (objs decoded (λ j obj,
        ja (S k) j obj ∧ block_id obj = None ∧ (head obj = true ↔ hd k j))
        (alter (set_jump_addr (decode_arg (op o) 1)) k h1)) as Hmid.
      { eapply objs_alter; [done|apply keeps_op_set_jump_addr| |].
        - intros j obj Hj Hobj ([Hj1 Hj2] & Hb & Hhd).
          split; [|done]. split.
          + intros Ht Hjk. apply Hj1; [done|lia].
          + intros [?|?]; apply Hj2; [by left|right; lia].
        - intros obj Hobj ([Hj1 Hj2] & Hb & Hhd). simplify_eq.
          split; [|done]. split; simpl; [done|]. intros [?|?]; [congruence|lia]. }
      destruct (m !! decode_arg (op o) 1) as [dst|] eqn:Em.
      * eexists. split; [done|].
        eapply objs_alter; [done|apply keeps_op_set_head| |].
        -- intros j obj Hj Hobj (Hja & Hb & Hhd). split; [done|]. split; [done|].
           rewrite Hhd. unfold hd. split.
           ++ intros [?|[?|(t & o' & ? & ?)]]; [by left|by right; left|].
              right; right. exists t, o'. split; [lia|done].
           ++ intros [?|[?|(t & o' & Hle & Ho' & Hb' & Hm')]];
                [by left|by right; left|].
              right; right. exists t, o'. split; [|done].
              destruct (decide (t = k)) as [->|]; [|lia]. congruence.
        -- intros obj Hobj (Hja & Hb & Hhd). split; [done|]. split; [done|].
           simpl. split; [|done]. intros _. right; right.
           exists k, (op o). split; [lia|]. split; [done|]. split; [congruence|done].
      * eexists. split; [done|].
        eapply objs_weaken; [done|]. intros j obj Hobj (Hja & Hb & Hhd).
        split; [done|]. split; [done|]. rewrite Hhd. unfold hd. split.
        -- intros [?|[?|(t & o' & ? & ?)]]; [by left|by right; left|].
           right; right. exists t, o'. split; [lia|done].
        -- intros [?|[?|(t & o' & Hle & Ho' & Hb' & Hm')]];
             [by left|by right; left|].
           right; right. exists t, o'. split; [|done].
           destruct (decide (t = k)) as [->|]; [|lia]. congruence.
    + eexists. split; [done|].
      eapply objs_weaken; [done|]. intros j obj Hobj ([Hj1 Hj2] & Hb & Hhd).
      split; [split|split; [done|]].
      * intros Ht Hj. apply Hj1; [done|].
        destruct (decide (j = k)) as [->|]; [congruence|lia].
      * intros [?|?]; apply Hj2; [by left|right; lia].
      * rewrite Hhd. unfold hd. split.
        -- intros [?|[?|(t & o' & ? & ?)]]; [by left|by right; left|].
           right; right. exists t, o'. split; [lia|done].
        -- intros [?|[?|(t & o' & Hle & Ho' & Hb' & Hm')]];
             [by left|by right; left|].
           right; right. exists t, o'. split; [|done].
           destruct (decide (t = k)) as [->|]; [|lia]. congruence.
  - exists h'. split; [done|]. rewrite length_seq in Hinv.
    eapply objs_weaken; [done|]. intros j obj Hj ([Hj1 Hj2] & Hb & Hhd).
    split; [|split; [done|]].
    + apply lookup_lt_Some in Hj. destruct Hinv as [Hlen _].
      destruct (tail obj); [apply Hj1; [done|lia] | apply Hj2; by left].
    + rewrite Hhd. unfold hd, head_at. split.
      * intros [?|[?|(t & o' & ? & ?)]]; [by left|by right; left|].
        right; right. by exists t, o'.
      * intros [?|[?|(t & o' & Ho' & ?)]]; [by left|by right; left|].
        right; right. exists t, o'. split; [|done]. by eapply lookup_lt_Some.
Qed.

(** *** Partition into blocks *)

Lemma block_ok_alter h bi blk b k :
  block_ok h bi blk → k ∉ blk → block_ok (alter (set_block_id b) k h) bi blk.
Proof.
  intros (r & rest & -> & (obj & Hr & Hhd & Hid) & Hrest) Hk.
  exists r, rest. split; [done|]. split.
  - exists obj. rewrite list_lookup_alter_ne; [done|]. set_solver.
  - intros r' Hr'. destruct (Hrest r' Hr') as (obj' & ? & ? & ?).
    exists obj'. rewrite list_lookup_alter_ne; [done|]. set_solver.
Qed.

Lemma blocks_ok_alter h k bl b :
  blocks_ok h k bl → blocks_ok (alter (set_block_id b) k h) k bl.
Proof.
  intros [Hcat Hbl]. split; [done|]. intros bi blk Hbi.
  apply block_ok_alter; [by apply Hbl|]. intros Hin.
  assert (k ∈ concat bl) as Hk.
  { apply elem_of_concat. exists blk. split; [|done].
    by eapply list_elem_of_lookup_2. }
  rewrite Hcat in Hk. apply elem_of_seq in Hk. lia.
Qed.

Lemma blocks_ok_snoc h k bl r :
  blocks_ok h k bl →
  (∃ obj, h !! r = Some obj ∧ head obj = true
          ∧ block_id obj = Some (length bl)) →
  r = k →
  blocks_ok h (S k) (bl ++ [[r]]).
Proof.
  intros [Hcat Hbl] Hr ->. split.
  - rewrite concat_app, Hcat. simpl. symmetry. exact (seq_S k 0).
  - intros bi blk Hbi. apply lookup_snoc_Some in Hbi as [[_ Hbi]|[-> <-]]; [eauto|].
    exists k, []. split; [done|]. split; [done|]. intros r' Hr'.
    by apply elem_of_nil in Hr'.
Qed.

Lemma blocks_ok_extend h k bl b r :
  blocks_ok h k (bl ++ [b]) →
  (∃ obj, h !! r = Some obj ∧ head obj = false
          ∧ block_id obj = Some (S (length bl))) →
  r = k →
  blocks_ok h (S k) (bl ++ [b ++ [r]]).
Proof.
  intros [Hcat Hbl] Hr ->. split.
  - rewrite concat_app in *. simpl in *. rewrite app_nil_r in *.
    rewrite app_assoc, Hcat. symmetry. exact (seq_S k 0).
  - intros bi blk Hbi. apply lookup_snoc_Some in Hbi as [[Hlt Hbi]|[-> <-]].
    + apply Hbl. by apply lookup_app_l_Some.
    + destruct (Hbl (length bl) b) as (r & rest & -> & Hhd & Hrest).
      { by apply list_lookup_middle. }
      exists r, (rest ++ [k]). split; [done|]. split; [done|].
      intros r' Hr'. apply elem_of_app in Hr' as [Hr'|Hr']; [eauto|].
      apply list_elem_of_singleton in Hr'. by subst.
Qed.

Lemma partition_spec (decoded : list Op) (m : gmap Z nat) (h : list OpObj) :
  decoded ≠ [] →
  objs decoded (λ j obj,
    jump_addr obj = (if tail obj then Some (decode_arg (op obj) 1) else None)
    ∧ block_id obj = None
    ∧ (head obj = true ↔ head_at decoded m j)) h →
  ∃ h' blocks cur_block id,
    for_each partition_step (seq 0 (length decoded)) (h, [], None, 0)
      = Some (h', blocks, cur_block, id)
    ∧ objs decoded (attrs decoded m) h'
    ∧ blocks_ok h' (length decoded) (close_block blocks cur_block).
Proof.
  intros Hne Hh.
  destruct (for_each_inv
    (λ k st, objs decoded (λ j obj, attrs decoded m j obj
                                    ∧ (k ≤ j → block_id obj = None)) st.1.1.1
      ∧ match st.1.2 with
        | None => k = 0 ∧ st.1.1.2 = [] ∧ st.2 = 0
        | Some b => blocks_ok st.1.1.1 k (st.1.1.2 ++ [b])
                    ∧ st.2 = S (length st.1.1.2)
        end)
    partition_step (seq 0 (length decoded)) (h, [], None, 0))
    as (st & Hrun & Hinv).
  - simpl. split; [|done]. eapply objs_weaken; [done|].
    intros j obj _ (? & ? & ?). done.
  - intros k x [[[h1 blocks] cur] id] Hk [Hobjs Hcur].
    apply lookup_seq in Hk as [-> Hlt]. simpl in *.
    destruct (objs_lookup _ _ _ k Hobjs) as [o Ho]; [lia|].
    destruct (proj2 Hobjs k o Ho) as (Hdo & Hbo & [Hja Hhd] & Hid).
    assert (objs decoded (λ j obj, attrs decoded m j obj
                                   ∧ (S k ≤ j → block_id obj = None))
              (alter (set_block_id id) k h1)) as Hobjs'.
    { eapply objs_alter; [done|apply keeps_op_set_block_id| |].
      - intros j obj _ _ [? Hn]. split; [done|]. intros ?. apply Hn. lia.
      - intros obj _ [? Hn]. split; [done|]. lia. }
    assert (alter (set_block_id id) k h1 !! k = Some (set_block_id id o)) as Ho'.
    { by rewrite list_lookup_alter_eq, Ho. }
    rewrite Ho. simpl. destruct (head o) eqn:Eh.
    + eexists. split; [done|]. simpl. split; [done|].
      destruct cur as [b|].
      * destruct Hcur as [Hbl ->].
        destruct (proj2 Hbl (length blocks) b) as (r & rest & -> & _).
        { by apply list_lookup_middle. }
        split; [|by rewrite length_app, Nat.add_comm].
        apply blocks_ok_snoc; [by apply blocks_ok_alter| |done].
        exists (set_block_id (S (length blocks)) o).
        split; [done|]. split; [done|].
        simpl. by rewrite length_app, Nat.add_comm.
      * destruct Hcur as (-> & -> & ->). split; [|done].
        apply (blocks_ok_snoc _ 0 []); [by split| |done].
        exists (set_block_id 0 o). done.
    + destruct cur as [b|].
      * destruct Hcur as [Hbl ->].
        eexists. split; [done|]. simpl. split; [done|]. split; [|done].
        apply blocks_ok_extend; [by apply blocks_ok_alter| |done].
        exists (set_block_id (S (length blocks)) o). done.
      * destruct Hcur as (-> & _). exfalso.
        assert (false = true); [|done]. apply Hhd. by left.
  - destruct st as [[[h' blocks] cur] id]. simpl in Hinv.
    rewrite length_seq in Hinv. destruct Hinv as [Hobjs Hcur].
    exists h', blocks, cur, id. split; [done|]. split.
    + eapply objs_weaken; [done|]. by intros j obj _ [? _].
    + destruct cur as [b|].
      * destruct Hcur as [Hbl _].
        destruct (proj2 Hbl (length blocks) b) as (r & rest & -> & _).
        { by apply list_lookup_middle. }
        done.
      * destruct Hcur as (Hz & _). destruct decoded; done.
Qed.

Lemma block_ok_member h bi blk r :
  block_ok h bi blk → r ∈ blk →
  ∃ obj, h !! r = Some obj
    ∧ block_id obj = Some (if head obj then bi else S bi).
Proof.
  intros (r0 & rest & -> & (obj & Hr & Hhd & Hid) & Hrest) Hin.
  apply elem_of_cons in Hin as [->|Hin].
  - exists obj. by rewrite Hhd.
  - destruct (Hrest r Hin) as (obj' & ? & Hhd' & ?). exists obj'. by rewrite Hhd'.
Qed.

Lemma blocks_ok_member h n bl j :
  blocks_ok h n bl → j < n → ∃ bi blk, bl !! bi = Some blk ∧ j ∈ blk.
Proof.
  intros [Hcat _] Hj.
  assert (j ∈ concat bl) as Hin by (rewrite Hcat; apply elem_of_seq; lia).
  apply elem_of_concat in Hin as (blk & Hblk & Hin).
  apply list_elem_of_lookup_1 in Hblk as [bi Hbi]. eauto.
Qed.

(** A head is the first member of its block, and its [block_id] is the
    index of that block. *)
Lemma head_block h n bl d dobj :
  blocks_ok h n bl → h !! d = Some dobj → d < n → head dobj = true →
  ∃ bd rest, bl !! bd = Some (d :: rest) ∧ block_id dobj = Some bd.
Proof.
  intros Hbl Hd Hlt Hhd.
  destruct (blocks_ok_member _ _ _ _ Hbl Hlt) as (bd & blk & Hbd & Hin).
  destruct (proj2 Hbl bd blk Hbd) as (r & rest & -> & (obj & Hr & _ & Hid) & Hrest).
  apply elem_of_cons in Hin as [->|Hin].
  - exists bd, rest. split; [done|]. congruence.
  - destruct (Hrest d Hin) as (obj' & ? & ? & _). congruence.
Qed.

(** *** Edges *)

Lemma zip_blocks_lookup (bl : list (list nat)) (k : nat)
    (x : nat * (list nat * list nat)) :
  zip (seq 0 (length bl)) (zip bl (drop 1 bl)) !! k = Some x →
  ∃ prev cur, x = (k, (prev, cur)) ∧ bl !! k = Some prev ∧ bl !! S k = Some cur.
Proof.
  intros H. apply lookup_zip_with_Some in H as (a & pc & -> & Ha & Hpc).
  apply lookup_zip_with_Some in Hpc as (prev & cur & -> & Hprev & Hcur).
  apply lookup_seq in Ha as [-> _]. rewrite lookup_drop in Hcur.
  exists prev, cur. done.
Qed.

Lemma edges_of_spec decoded m h bl i prev cur :
  addr_map_of decoded m → objs decoded (attrs decoded m) h →
  blocks_ok h (length decoded) bl →
  bl !! i = Some prev → bl !! S i = Some cur →
  ∃ r obj out,
    last prev = Some r ∧ h !! r = Some obj
    ∧ edges_of h m i prev cur = Some out
    ∧ (optype (op obj) = OpHlt → out = [])
    ∧ (optype (op obj) ≠ OpHlt → tail obj = false →
         out = [(i, S i, J_UNCONDITIONAL)])
    ∧ (optype (op obj) ≠ OpHlt → tail obj = true →
         ∃ taken, taken_edges h m bl i obj taken
                  ∧ out = taken ++ [(i, S i, J_FALSE)]).
Proof.
  intros Hm Hobjs Hbl Hprev Hcur.
  pose proof (proj2 Hbl i prev Hprev) as Hok.
  destruct (last prev) as [r|] eqn:Hlast.
  2: { apply last_None in Hlast. destruct Hok as (? & ? & ? & _). congruence. }
  destruct (block_ok_member _ _ _ r Hok) as (obj & Hr & _).
  { by apply last_Some_elem_of. }
  destruct (proj2 Hobjs r obj Hr) as (Hdr & Hbr & Hja & _).
  destruct (proj2 Hbl (S i) cur Hcur)
    as (c & crest & -> & (cobj & Hc & Hchd & _) & _).
  exists r, obj. unfold edges_of. rewrite Hlast. simpl. rewrite Hr. simpl.
  case_bool_decide as Hhlt.
  { eexists. do 3 (split; [done|]). split; [done|]. split; done. }
  destruct (tail obj) eqn:Et.
  2: { eexists. do 3 (split; [done|]). split; [done|]. split; done. }
  rewrite Hja. simpl. unfold taken_edges.
  destruct (m !! decode_arg (op obj) 1) as [d|] eqn:Em.
  - pose proof Em as Hd. apply Hm in Hd as (od & Hod & _).
    destruct (objs_lookup _ _ _ d Hobjs) as [dobj Hdobj].
    { by eapply lookup_lt_Some. }
    assert (head dobj = true) as Hdh.
    { destruct (proj2 Hobjs d dobj Hdobj) as (_ & _ & _ & Hhd). apply Hhd.
      right; right. exists r, (op obj). split; [done|]. split; [congruence|done]. }
    destruct (head_block _ _ _ _ _ Hbl Hdobj) as (bd & rest & Hbd & Hid);
      [by eapply lookup_lt_Some|done|].
    rewrite Hdobj. simpl. rewrite Hid. simpl. rewrite Hc. simpl. rewrite Hchd.
    eexists. do 3 (split; [reflexivity|]). split; [done|]. split; [done|].
    intros _ _. exists [(i, bd, J_TRUE)]. split; [|done]. by exists dobj, bd, rest.
  - simpl. rewrite Hc. simpl. rewrite Hchd.
    eexists. do 3 (split; [reflexivity|]). split; [done|]. split; [done|].
    intros _ _. by exists [].
Qed.

Lemma edge_loop_spec decoded m h bl :
  addr_map_of decoded m → objs decoded (attrs decoded m) h →
  blocks_ok h (length decoded) bl →
  for_each (edge_step h m) (zip (seq 0 (length bl)) (zip bl (drop 1 bl))) []
    = Some (concat (block_edges h m bl <$> seq 0 (length bl - 1))).
Proof.
  intros Hm Hobjs Hbl.
  destruct (for_each_inv
    (λ k edges, edges = concat (block_edges h m bl <$> seq 0 k))
    (edge_step h m) (zip (seq 0 (length bl)) (zip bl (drop 1 bl))) [])
    as (edges & Hrun & Hinv).
  - done.
  - intros k x edges Hk ->.
    apply zip_blocks_lookup in Hk as (prev & cur & -> & Hprev & Hcur).
    destruct (edges_of_spec _ _ _ _ k _ _ Hm Hobjs Hbl Hprev Hcur)
      as (r & obj & out & _ & _ & Hout & _).
    exists (concat (block_edges h m bl <$> seq 0 k) ++ out). split.
    + simpl. by rewrite Hout.
    + assert (block_edges h m bl k = out) as <-.
      { unfold block_edges. rewrite Hprev. simpl. rewrite Hcur. simpl.
        by rewrite Hout. }
      rewrite seq_S, fmap_app, concat_app. simpl. by rewrite app_nil_r.
  - rewrite Hrun, Hinv. do 4 f_equal.
    rewrite !length_zip_with, length_drop, length_seq. lia.
Qed.

(** *** The whole of [cfg] *)

(** On a non-empty stream whose conditional jumps have their two arguments,
    [cfg] raises no exception. *)
Lemma cfg_spec (decoded : list Op) :
  decoded ≠ [] → Forall jumps_decoded decoded →
  ∃ res, cfg ARGMODE_IMMEDIATE decode_arg decoded = Some res ∧ cfg_ok decoded res.
Proof.
  intros Hne Hdec. unfold cfg.
  destruct (decode_loop_spec decoded Hdec) as (h0 & m & -> & Hh0 & Hm). simpl.
  destruct (mark_first_spec decoded h0 Hne Hh0) as (h1 & -> & Hh1). simpl.
  destruct (mark_after_tail_spec decoded h1 Hh1) as (h2 & -> & Hh2). simpl.
  destruct (mark_target_spec decoded m h2 Hh2) as (h3 & -> & Hh3). simpl.
  destruct (partition_spec decoded m h3 Hne Hh3)
    as (h4 & blocks & cur & id & -> & Hh4 & Hbl). simpl.
  rewrite (edge_loop_spec decoded m h4 _ Hm Hh4 Hbl). simpl.
  eexists. split; [done|]. by constructor.
Qed.

(** Every edge that the loop appends for block [i] leaves block [i]. *)
Lemma edges_of_src h m i prev cur out :
  edges_of h m i prev cur = Some out → Forall (λ e, e_src e = i) out.
Proof.
  unfold edges_of. intros H.
  destruct (last prev) as [r|]; simpl in H; [|done].
  destruct (h !! r) as [obj|]; simpl in H; [|done].
  case_bool_decide; [by simplify_eq|].
  destruct (tail obj); [|simplify_eq; by repeat constructor].
  destruct (jump_addr obj) as [a|]; simpl in H; [|done].
  destruct (cur !! 0) as [c|]; simpl in H.
  2: { destruct (m !! a) as [d|]; simpl in H; [|done].
       destruct (h !! d) as [dobj|]; simpl in H; [|done].
       destruct (block_id dobj); simpl in H; done. }
  destruct (m !! a) as [d|]; simpl in H.
  - destruct (h !! d) as [dobj|]; simpl in H; [|done].
    destruct (block_id dobj); simpl in H; [|done].
    destruct (h !! c); simpl in H; [|done]. simplify_eq. by repeat constructor.
  - destruct (h !! c); simpl in H; [|done]. simplify_eq. by repeat constructor.
Qed.

Lemma block_edges_src h m bl i : Forall (λ e, e_src e = i) (block_edges h m bl i).
Proof.
  unfold block_edges.
  destruct (bl !! i) as [prev|]; simpl; [|done].
  destruct (bl !! S i) as [cur|]; simpl; [|done].
  destruct (edges_of h m i prev cur) as [out|] eqn:E; simpl; [|done].
  by eapply edges_of_src.
Qed.

Lemma filter_src_same (b : nat) (l : list Edge) :
  Forall (λ e, e_src e = b) l → filter (λ e, e_src e = b) l = l.
Proof.
  induction 1 as [|e l He _ IH]; [done|].
  rewrite filter_cons_True; [|done]. by rewrite IH.
Qed.

Lemma filter_src_other (b i : nat) (l : list Edge) :
  i ≠ b → Forall (λ e, e_src e = i) l → filter (λ e, e_src e = b) l = [].
Proof.
  intros Hne. induction 1 as [|e l He _ IH]; [done|].
  rewrite filter_cons_False; [done|]. congruence.
Qed.

(** The edges that leave block [b]. *)
Lemma edges_from h m bl k b :
  filter (λ e, e_src e = b) (concat (block_edges h m bl <$> seq 0 k))
  = if bool_decide (b < k) then block_edges h m bl b else [].
Proof.
  induction k as [|k IH]; [done|].
  rewrite seq_S, fmap_app, concat_app, filter_app, IH. simpl.
  rewrite app_nil_r. destruct (decide (b = k)) as [->|Hne].
  - rewrite bool_decide_eq_false_2 by lia. rewrite bool_decide_eq_true_2 by lia.
    simpl. apply filter_src_same, block_edges_src.
  - rewrite (filter_src_other b k); [|done|apply block_edges_src].
    rewrite app_nil_r. do 2 case_bool_decide; done || lia.
Qed.

(** *** Consequences *)

Lemma app_eq_seq (l1 l2 : list nat) (s n : nat) :
  l1 ++ l2 = seq s n →
  l1 = seq s (length l1) ∧ l2 = seq (s + length l1) (length l2).
Proof.
  intros H.
  assert (n = length l1 + length l2) as ->.
  { apply (f_equal length) in H. rewrite length_app, length_seq in H. lia. }
  rewrite seq_app in H. apply app_inj_1 in H; [done|by rewrite length_seq].
Qed.

Lemma concat_eq_seq (bl : list (list nat)) (s n b : nat) (blk : list nat) :
  concat bl = seq s n → bl !! b = Some blk → ∃ a, blk = seq a (length blk).
Proof.
  revert s n b. induction bl as [|x bl IH]; intros s n b Hcat Hb; [done|].
  simpl in Hcat. apply app_eq_seq in Hcat as [Hx Hrest].
  destruct b as [|b]; simpl in Hb.
  - simplify_eq. eauto.
  - eapply IH; done.
Qed.

Lemma breaks_true_iff (o : Op) (t : bool) :
  breaks o = Some t →
  (t = true ↔ mnemonic o ∈ ["jnz"; "jz"]%string
              ∧ argmodes o !! 1 = Some ARGMODE_IMMEDIATE).
Proof.
  unfold breaks_basic_block. case_bool_decide as Hm.
  - destruct (argmodes o !! 1) as [a|]; simpl; [|done]. intros [= <-].
    rewrite bool_decide_eq_true. naive_solver.
  - intros [= <-]. naive_solver.
Qed.

(** A tail is the last member of its block: the instruction after it is a
    head. *)
Lemma tail_is_last decoded res b blk r obj :
  cfg_ok decoded res →
  r_blocks res !! b = Some blk → r ∈ blk →
  r_heap res !! r = Some obj → tail obj = true →
  last blk = Some r.
Proof.
  intros [_ _ Hobjs Hbl _] Hb Hin Hr Ht.
  destruct (concat_eq_seq _ _ _ _ _ (proj1 Hbl) Hb) as [a Hseq].
  destruct (proj2 Hbl b blk Hb) as (r0 & rest & Hblk & _ & Hrest).
  rewrite last_lookup, Hseq, length_seq.
  rewrite Hseq in Hin. apply elem_of_seq in Hin.
  destruct (decide (S r = a + length blk)) as [Heq|Hneq].
  { rewrite lookup_seq_lt by lia. f_equal. lia. }
  exfalso.
  assert (S r ∈ rest) as Hin'.
  { assert (rest = seq (S a) (length rest)) as ->.
    { rewrite Hblk in Hseq. simpl in Hseq. by simplify_eq. }
    apply elem_of_seq. rewrite Hblk in Hin, Hneq. simpl in *. lia. }
  destruct (Hrest _ Hin') as (obj' & Hobj' & Hhd & _).
  destruct (proj2 Hobjs _ _ Hobj') as (_ & _ & _ & Hhead).
  assert (head obj' = true); [|congruence].
  apply Hhead. right; left. exists r. split; [done|].
  by apply (objs_tail _ _ _ _ _ Hobjs Hr).
Qed.

Lemma cfg_ok_edges_from decoded res b :
  cfg_ok decoded res →
  filter (λ e, e_src e = b) (r_edges res)
  = if bool_decide (S b < length (r_blocks res))
    then block_edges (r_heap res) (r_addr_to_op res) (r_blocks res) b
    else [].
Proof.
  intros [_ _ _ _ ->]. rewrite edges_from.
  do 2 case_bool_decide; done || lia.
Qed.

(** The edges that leave a block other than the last one. *)
Lemma cfg_ok_block_edges decoded res b prev :
  cfg_ok decoded res →
  r_blocks res !! b = Some prev → S b < length (r_blocks res) →
  ∃ r obj out,
    last prev = Some r ∧ r_heap res !! r = Some obj
    ∧ filter (λ e, e_src e = b) (r_edges res) = out
    ∧ (optype (op obj) = OpHlt → out = [])
    ∧ (optype (op obj) ≠ OpHlt → tail obj = false →
         out = [(b, S b, J_UNCONDITIONAL)])
    ∧ (optype (op obj) ≠ OpHlt → tail obj = true →
         ∃ taken,
           taken_edges (r_heap res) (r_addr_to_op res) (r_blocks res) b obj taken
           ∧ out = taken ++ [(b, S b, J_FALSE)]).
Proof.
  intros Hok Hb Hlt.
  destruct (lookup_lt_is_Some_2 _ _ Hlt) as [cur Hcur].
  destruct (edges_of_spec _ _ _ _ b _ _ (ok_map _ _ Hok) (ok_heap _ _ Hok)
              (ok_blocks _ _ Hok) Hb Hcur)
    as (r & obj & out & Hlast & Hr & Hout & Hcases).
  exists r, obj, out. do 2 (split; [done|]). split; [|done].
  rewrite (cfg_ok_edges_from _ _ _ Hok), bool_decide_eq_true_2 by done.
  unfold block_edges. rewrite Hb. simpl. rewrite Hcur. simpl. by rewrite Hout.
Qed.

Lemma elem_of_filter_src (b : nat) (e : Edge) (l : list Edge) :
  e ∈ l → e_src e = b → e ∈ filter (λ e, e_src e = b) l.
Proof. intros. by apply list_elem_of_filter. Qed.

(** Where an edge comes from: its source is a block other than the last,
    whose last instruction is not an [OpHlt]; it is the fall-through edge
    of that block, or the taken-branch edge of its tail. *)
Lemma edge_cases decoded res (e : Edge) :
  cfg_ok decoded res → e ∈ r_edges res →
  ∃ prev r obj,
    S (e_src e) < length (r_blocks res)
    ∧ r_blocks res !! e_src e = Some prev
    ∧ last prev = Some r ∧ r_heap res !! r = Some obj
    ∧ optype (op obj) ≠ OpHlt
    ∧ ((tail obj = false ∧ e = (e_src e, S (e_src e), J_UNCONDITIONAL))
       ∨ (tail obj = true ∧ e = (e_src e, S (e_src e), J_FALSE))
       ∨ (tail obj = true ∧
          ∃ d dobj bd rest,
            r_addr_to_op res !! decode_arg (op obj) 1 = Some d
            ∧ r_heap res !! d = Some dobj ∧ head dobj = true
            ∧ block_id dobj = Some bd
            ∧ r_blocks res !! bd = Some (d :: rest)
            ∧ e = (e_src e, bd, J_TRUE))).
Proof.
  intros Hok He.
  pose proof (elem_of_filter_src (e_src e) e _ He eq_refl) as Hin.
  destruct (decide (S (e_src e) < length (r_blocks res))) as [Hlt|Hge].
  2: { rewrite (cfg_ok_edges_from _ _ _ Hok), bool_decide_eq_false_2 in Hin by done.
       by apply elem_of_nil in Hin. }
  destruct (lookup_lt_is_Some_2 (r_blocks res) (e_src e)) as [prev Hprev]; [lia|].
  destruct (cfg_ok_block_edges _ _ _ _ Hok Hprev Hlt)
    as (r & obj & out & Hlast & Hr & Hout & Hhlt & Hplain & Htail).
  rewrite Hout in Hin. exists prev, r, obj. do 4 (split; [done|]).
  destruct (decide (optype (op obj) = OpHlt)) as [Hh|Hh].
  { rewrite (Hhlt Hh) in Hin. by apply elem_of_nil in Hin. }
  split; [done|]. destruct (tail obj) eqn:Et.
  - destruct (Htail Hh eq_refl) as (taken & Htk & ->).
    apply elem_of_app in Hin as [Hin|Hin].
    + right; right. split; [done|]. unfold taken_edges in Htk.
      destruct (r_addr_to_op res !! decode_arg (op obj) 1) as [d|].
      * destruct Htk as (dobj & bd & rest & ? & ? & ? & ? & ->).
        apply list_elem_of_singleton in Hin.
        exists d, dobj, bd, rest. done.
      * subst taken. by apply elem_of_nil in Hin.
    + right; left. by apply list_elem_of_singleton in Hin.
  - rewrite (Hplain Hh eq_refl) in Hin. left.
    by apply list_elem_of_singleton in Hin.
Qed.

(** ** The partition *)

(** C1: on a non-empty stream the blocks are an exact partition of the
    instructions.  The heap holds the instructions in address order, and
    [ops] the references to them; the concatenation of the blocks is
    [ops]; every block is a non-empty run of consecutive references; and
    every instruction is in exactly one block. *)
Theorem partition_exact (decoded : list Op) :
  decoded ≠ [] → Forall jumps_decoded decoded →
  ∃ res, cfg ARGMODE_IMMEDIATE decode_arg decoded = Some res
    ∧ op <$> r_heap res = decoded
    ∧ r_ops res = seq 0 (length decoded)
    ∧ concat (r_blocks res) = r_ops res
    ∧ NoDup (concat (r_blocks res))
    ∧ (∀ b blk, r_blocks res !! b = Some blk →
         blk ≠ [] ∧ ∃ a, blk = seq a (length blk))
    ∧ (∀ j, j < length decoded →
         ∃ b blk, r_blocks res !! b = Some blk ∧ j ∈ blk
           ∧ ∀ b' blk', r_blocks res !! b' = Some blk' → j ∈ blk' → b' = b).
Proof.
  intros Hne Hdec. destruct (cfg_spec decoded Hne Hdec) as (res & Hres & Hok).
  exists res. split; [done|]. destruct Hok as [Hops Hm Hobjs Hbl Hedges].
  split; [|split; [done|]; split; [|split; [|split]]].
  - apply list_eq. intros j. rewrite list_lookup_fmap.
    destruct (r_heap res !! j) as [obj|] eqn:Hj; simpl.
    + by destruct (proj2 Hobjs j obj Hj) as [-> _].
    + symmetry. apply lookup_ge_None. apply lookup_ge_None in Hj.
      destruct Hobjs as [<- _]. done.
  - rewrite Hops. apply Hbl.
  - rewrite (proj1 Hbl). apply NoDup_seq.
  - intros b blk Hb. split.
    + destruct (proj2 Hbl b blk Hb) as (? & ? & -> & _). done.
    + by eapply concat_eq_seq; [apply Hbl|].
  - intros j Hj. destruct (blocks_ok_member _ _ _ _ Hbl Hj) as (b & blk & Hb & Hin).
    exists b, blk. do 2 (split; [done|]). intros b' blk' Hb' Hin'.
    destruct (block_ok_member _ _ _ j (proj2 Hbl b blk Hb) Hin) as (obj & Ho & Hid).
    destruct (block_ok_member _ _ _ j (proj2 Hbl b' blk' Hb') Hin')
      as (obj' & Ho' & Hid').
    simplify_eq. destruct (head obj); congruence.
Qed.

(** ** Tails and heads *)

(** C6: the [tail] attribute of every instruction is set exactly when its
    mnemonic is [jnz] or [jz] and the mode of its second argument is
    immediate. *)
Theorem tail_flag_iff (decoded : list Op) :
  decoded ≠ [] → Forall jumps_decoded decoded →
  ∃ res, cfg ARGMODE_IMMEDIATE decode_arg decoded = Some res
    ∧ length (r_heap res) = length decoded
    ∧ ∀ j obj, r_heap res !! j = Some obj →
        decoded !! j = Some (op obj)
        ∧ (tail obj = true ↔
             mnemonic (op obj) ∈ ["jnz"; "jz"]%string
             ∧ argmodes (op obj) !! 1 = Some ARGMODE_IMMEDIATE).
Proof.
  intros Hne Hdec. destruct (cfg_spec decoded Hne Hdec) as (res & Hres & Hok).
  exists res. split; [done|]. destruct (ok_heap _ _ Hok) as [Hlen Hobj].
  split; [done|]. intros j obj Hj. destruct (Hobj j obj Hj) as (Hd & Hb & _).
  split; [done|]. by apply breaks_true_iff.
Qed.

(** C7: in every block only the first member can be a head; and, when the
    addresses of the stream are distinct, an instruction is a head exactly
    when it is the first of the stream, or follows a tail, or sits at the
    jump target of a tail. *)
Theorem head_flags (decoded : list Op) :
  decoded ≠ [] → Forall jumps_decoded decoded → NoDup (pc <$> decoded) →
  ∃ res, cfg ARGMODE_IMMEDIATE decode_arg decoded = Some res
    ∧ (∀ b blk i r obj,
         r_blocks res !! b = Some blk → blk !! i = Some r →
         r_heap res !! r = Some obj → head obj = true → i = 0)
    ∧ (∀ j obj, r_heap res !! j = Some obj →
         (head obj = true ↔
            j = 0
            ∨ (∃ p pobj, j = S p ∧ r_heap res !! p = Some pobj
                         ∧ tail pobj = true)
            ∨ (∃ t tobj, r_heap res !! t = Some tobj ∧ tail tobj = true
                         ∧ jump_addr tobj = Some (pc (op obj))))).
Proof.
  intros Hne Hdec Hnd. destruct (cfg_spec decoded Hne Hdec) as (res & Hres & Hok).
  exists res. split; [done|]. destruct Hok as [Hops Hm Hobjs Hbl Hedges]. split.
  - intros b blk i r obj Hb Hi Hr Hhd.
    destruct (proj2 Hbl b blk Hb) as (r0 & rest & -> & _ & Hrest).
    destruct i as [|i]; [done|]. simpl in Hi.
    destruct (Hrest r) as (obj' & ? & ? & _); [by eapply list_elem_of_lookup_2|].
    congruence.
  - intros j obj Hj. destruct (proj2 Hobjs j obj Hj) as (Hdj & _ & _ & ->).
    unfold head_at. split.
    + intros [?|[(p & -> & Hp)|(t & o & Ht & Hb & Hmt)]]; [by left|right; left|].
      * pose proof Hp as (op' & Hop' & _).
        destruct (objs_lookup _ _ _ p Hobjs) as [pobj Hpobj];
          [by eapply lookup_lt_Some|].
        exists p, pobj. do 2 (split; [done|]).
        by apply (objs_tail _ _ _ _ _ Hobjs Hpobj).
      * right; right.
        destruct (objs_lookup _ _ _ t Hobjs) as [tobj Htobj];
          [by eapply lookup_lt_Some|].
        destruct (proj2 Hobjs t tobj Htobj) as (Hdt & Hbt & Hja & _).
        assert (op tobj = o) as Ho by congruence.
        assert (tail tobj = true) as Htl by congruence.
        exists t, tobj. do 2 (split; [done|]).
        rewrite Hja, Htl, Ho. f_equal.
        apply (addr_map_of_NoDup _ _ _ _ Hm Hnd) in Hmt as (oj & Hoj & <-).
        congruence.
    + intros [?|[(p & pobj & -> & Hp & Ht)|(t & tobj & Ht & Htl & Hja)]];
        [by left|right; left|right; right].
      * exists p. split; [done|]. by apply (objs_tail _ _ _ _ _ Hobjs Hp).
      * destruct (proj2 Hobjs t tobj Ht) as (Hdt & Hbt & Hja' & _).
        exists t, (op tobj). split; [done|]. split; [congruence|].
        rewrite Htl in Hja'. rewrite Hja' in Hja. simplify_eq. rewrite Hja.
        apply (addr_map_of_NoDup _ _ _ _ Hm Hnd). eauto.
Qed.

(** ** Edges *)

(** C3: no edge leaves a block whose last instruction is an [OpHlt]. *)
Theorem halt_no_edges (decoded : list Op) :
  decoded ≠ [] → Forall jumps_decoded decoded →
  ∃ res, cfg ARGMODE_IMMEDIATE decode_arg decoded = Some res
    ∧ ∀ b blk r obj,
        r_blocks res !! b = Some blk → last blk = Some r →
        r_heap res !! r = Some obj → optype (op obj) = OpHlt →
        filter (λ e, e_src e = b) (r_edges res) = []
        ∧ ∀ e, e ∈ r_edges res → e_src e ≠ b.
Proof.
  intros Hne Hdec. destruct (cfg_spec decoded Hne Hdec) as (res & Hres & Hok).
  exists res. split; [done|]. intros b blk r obj Hb Hlast Hr Hhlt.
  assert (filter (λ e, e_src e = b) (r_edges res) = []) as Hnil.
  { destruct (decide (S b < length (r_blocks res))) as [Hlt|Hge].
    - destruct (cfg_ok_block_edges _ _ _ _ Hok Hb Hlt)
        as (r' & obj' & out & Hlast' & Hr' & <- & Hout & _).
      apply Hout. congruence.
    - by rewrite (cfg_ok_edges_from _ _ _ Hok), bool_decide_eq_false_2. }
  split; [done|]. intros e He Hsrc.
  pose proof (elem_of_filter_src b e _ He Hsrc) as Hin.
  rewrite Hnil in Hin. by apply elem_of_nil in Hin.
Qed.

(** C9: no edge leaves the last block, whatever its last instruction is. *)
Theorem last_block_no_edges (decoded : list Op) :
  decoded ≠ [] → Forall jumps_decoded decoded →
  ∃ res, cfg ARGMODE_IMMEDIATE decode_arg decoded = Some res
    ∧ r_blocks res ≠ []
    ∧ filter (λ e, e_src e = length (r_blocks res) - 1) (r_edges res) = []
    ∧ ∀ e, e ∈ r_edges res → e_src e ≠ length (r_blocks res) - 1.
Proof.
  intros Hne Hdec. destruct (cfg_spec decoded Hne Hdec) as (res & Hres & Hok).
  exists res. split; [done|].
  assert (filter (λ e, e_src e = length (r_blocks res) - 1) (r_edges res) = [])
    as Hnil.
  { rewrite (cfg_ok_edges_from _ _ _ Hok), bool_decide_eq_false_2; [done|lia]. }
  split; [|split; [done|]].
  - intros Hbl. destruct (ok_blocks _ _ Hok) as [Hcat _].
    rewrite Hbl in Hcat. simpl in Hcat. destruct decoded; done.
  - intros e He Hsrc.
    pose proof (elem_of_filter_src _ e _ He Hsrc) as Hin.
    rewrite Hnil in Hin. by apply elem_of_nil in Hin.
Qed.

(** C8: the two ends of every edge are indices of blocks.  The target of a
    [J_TRUE] edge is the [block_id] of the object that [addr_to_op] holds
    for the jump address of the tail; that object is a head, and its
    [block_id] is the index of the block that it starts.  The [block_id]
    of a member that is not a head is one more than the index of its
    block. *)
Theorem edge_ids_valid (decoded : list Op) :
  decoded ≠ [] → Forall jumps_decoded decoded →
  ∃ res, cfg ARGMODE_IMMEDIATE decode_arg decoded = Some res
    ∧ (∀ e, e ∈ r_edges res →
         e_src e < length (r_blocks res) ∧ e_dst e < length (r_blocks res))
    ∧ (∀ s d, (s, d, J_TRUE) ∈ r_edges res →
         ∃ prev r obj a t tobj rest,
           r_blocks res !! s = Some prev ∧ last prev = Some r
           ∧ r_heap res !! r = Some obj ∧ jump_addr obj = Some a
           ∧ r_addr_to_op res !! a = Some t
           ∧ r_heap res !! t = Some tobj ∧ head tobj = true
           ∧ block_id tobj = Some d
           ∧ r_blocks res !! d = Some (t :: rest))
    ∧ (∀ b blk i r obj,
         r_blocks res !! b = Some blk → blk !! i = Some r →
         r_heap res !! r = Some obj →
         block_id obj = Some (if head obj then b else S b)).
Proof.
  intros Hne Hdec. destruct (cfg_spec decoded Hne Hdec) as (res & Hres & Hok).
  exists res. split; [done|]. split; [|split].
  - intros e He.
    destruct (edge_cases _ _ _ Hok He)
      as (prev & r & obj & Hlt & _ & _ & _ & _ & Hcases).
    split; [lia|].
    destruct Hcases
      as [[_ ->]|[[_ ->]|[_ (d & dobj & bd & rest & _ & _ & _ & _ & Hbd & ->)]]];
      simpl; [done|done|].
    by eapply lookup_lt_Some.
  - intros s d He.
    destruct (edge_cases _ _ _ Hok He)
      as (prev & r & obj & _ & Hprev & Hlast & Hr & _ & Hcases).
    simpl in *.
    destruct Hcases
      as [[_ [=]]|[[_ [=]]
         |[Ht (t & tobj & bd & rest & Hm & Hto & Hhd & Hid & Hbd & [= <-])]]].
    destruct (proj2 (ok_heap _ _ Hok) r obj Hr) as (_ & _ & Hja & _).
    rewrite Ht in Hja.
    exists prev, r, obj, (decode_arg (op obj) 1), t, tobj, rest. done.
  - intros b blk i r obj Hb Hi Hr.
    destruct (block_ok_member _ _ _ r (proj2 (ok_blocks _ _ Hok) b blk Hb))
      as (obj' & Hr' & Hid); [by eapply list_elem_of_lookup_2|].
    rewrite Hr in Hr'. by simplify_eq.
Qed.

(** C4, amended: from a block other than the last whose last instruction is
    not an [OpHlt], exactly one edge of a kind other than [J_TRUE] leaves;
    it goes to the next block, and its kind is [J_FALSE] when the last
    instruction is a tail and [J_UNCONDITIONAL] otherwise. *)
Theorem fallthrough_edge (decoded : list Op) :
  decoded ≠ [] → Forall jumps_decoded decoded →
  ∃ res, cfg ARGMODE_IMMEDIATE decode_arg decoded = Some res
    ∧ ∀ b blk r obj,
        S b < length (r_blocks res) →
        r_blocks res !! b = Some blk → last blk = Some r →
        r_heap res !! r = Some obj → optype (op obj) ≠ OpHlt →
        filter (λ e, e_kind e ≠ J_TRUE) (filter (λ e, e_src e = b) (r_edges res))
        = [(b, S b, if tail obj then J_FALSE else J_UNCONDITIONAL)].
Proof.
  intros Hne Hdec. destruct (cfg_spec decoded Hne Hdec) as (res & Hres & Hok).
  exists res. split; [done|]. intros b blk r obj Hlt Hb Hlast Hr Hh.
  destruct (cfg_ok_block_edges _ _ _ _ Hok Hb Hlt)
    as (r' & obj' & out & Hlast' & Hr' & -> & _ & Hplain & Htail).
  rewrite Hlast in Hlast'. injection Hlast' as <-.
  rewrite Hr in Hr'. injection Hr' as <-.
  destruct (tail obj) eqn:Et.
  - destruct (Htail Hh eq_refl) as (taken & Htk & ->).
    rewrite filter_app. unfold taken_edges in Htk.
    destruct (r_addr_to_op res !! decode_arg (op obj) 1) as [d|].
    + destruct Htk as (dobj & bd & rest & _ & _ & _ & _ & ->).
      rewrite filter_cons_False by (simpl; intros H; by apply H). done.
    + by subst taken.
  - by rewrite (Hplain Hh eq_refl).
Qed.

(** C5, amended: when the jump address of a tail is not the address of any
    decoded instruction, [cfg] returns normally and no [J_TRUE] edge leaves
    the block of that tail. *)
Theorem unresolved_target_no_true_edge (decoded : list Op) :
  decoded ≠ [] → Forall jumps_decoded decoded →
  ∃ res, cfg ARGMODE_IMMEDIATE decode_arg decoded = Some res
    ∧ ∀ r obj a b blk,
        r_heap res !! r = Some obj → tail obj = true →
        jump_addr obj = Some a → a ∉ pc <$> decoded →
        r_blocks res !! b = Some blk → r ∈ blk →
        ∀ e, e ∈ r_edges res → e_src e = b → e_kind e ≠ J_TRUE.
Proof.
  intros Hne Hdec. destruct (cfg_spec decoded Hne Hdec) as (res & Hres & Hok).
  exists res. split; [done|]. intros r obj a b blk Hr Ht Hja Ha Hb Hin e He Hsrc.
  pose proof (tail_is_last _ _ _ _ _ _ Hok Hb Hin Hr Ht) as Hlast.
  destruct (edge_cases _ _ _ Hok He)
    as (prev & r' & obj' & _ & Hprev & Hlast' & Hr' & _ & Hcases).
  rewrite Hsrc, Hb in Hprev. injection Hprev as <-.
  rewrite Hlast in Hlast'. injection Hlast' as <-.
  rewrite Hr in Hr'. injection Hr' as <-.
  destruct Hcases as [[_ ->]|[[_ ->]|[_ (d & dobj & bd & rest & Hm & _)]]];
    [done|done|].
  exfalso. apply Ha.
  destruct (proj2 (ok_heap _ _ Hok) r obj Hr) as (_ & _ & Hja' & _).
  rewrite Ht, Hja in Hja'. injection Hja' as ->.
  apply (addr_map_of_dom _ _ _ (ok_map _ _ Hok)). eauto.
Qed.

(** C10: a stream of one instruction gives one block, which holds that
    instruction, marked as a head with [block_id] 0, and no edge. *)
Theorem single_instruction (o : Op) :
  jumps_decoded o →
  ∃ res obj, cfg ARGMODE_IMMEDIATE decode_arg [o] = Some res
    ∧ r_heap res = [obj] ∧ op obj = o ∧ head obj = true
    ∧ block_id obj = Some 0
    ∧ r_blocks res = [[0]]
    ∧ r_edges res = [].
Proof.
  intros Hdec. destruct (breaks_is_Some o Hdec) as [t Ht].
  unfold cfg. simpl. rewrite Ht. simpl. unfold mark_target. simpl.
  destruct t; simpl.
  - destruct (<[pc o:=0]> (∅ : gmap Z nat) !! decode_arg o 1) as [d|] eqn:Em.
    + assert (d = 0) as ->.
      { destruct (decide (pc o = decode_arg o 1)) as [Heq|Hneq].
        - rewrite Heq, lookup_insert_eq in Em. congruence.
        - by rewrite lookup_insert_ne, lookup_empty in Em. }
      simpl. eexists _, _. done.
    + simpl. eexists _, _. done.
  - eexists _, _. done.
Qed.

(** For a block other than the last, whose last instruction is not an
    [OpHlt], a [J_TRUE] edge leaves it exactly when that instruction is a
    tail whose jump address is the address of a decoded instruction. *)
Lemma true_edge_iff (decoded : list Op) :
  decoded ≠ [] → Forall jumps_decoded decoded →
  ∃ res, cfg ARGMODE_IMMEDIATE decode_arg decoded = Some res
    ∧ ∀ b blk r obj,
        S b < length (r_blocks res) →
        r_blocks res !! b = Some blk → last blk = Some r →
        r_heap res !! r = Some obj → optype (op obj) ≠ OpHlt →
        ((∃ d, (b, d, J_TRUE) ∈ r_edges res) ↔
         tail obj = true
         ∧ ∃ a, jump_addr obj = Some a ∧ a ∈ pc <$> decoded).
Proof.
  intros Hne Hdec. destruct (cfg_spec decoded Hne Hdec) as (res & Hres & Hok).
  exists res. split; [done|]. intros b blk r obj Hlt Hb Hlast Hr Hh.
  destruct (proj2 (ok_heap _ _ Hok) r obj Hr) as (_ & _ & Hja & _).
  split.
  - intros [d He].
    destruct (edge_cases _ _ _ Hok He)
      as (prev & r' & obj' & _ & Hprev & Hlast' & Hr' & _ & Hcases).
    change (e_src (b, d, J_TRUE)) with b in *.
    rewrite Hb in Hprev. injection Hprev as <-.
    rewrite Hlast in Hlast'. injection Hlast' as <-.
    rewrite Hr in Hr'. injection Hr' as <-.
    destruct Hcases as [[_ [=]]|[[_ [=]]|[Ht (t & _ & _ & _ & Hm & _)]]].
    split; [done|]. rewrite Ht in Hja. eexists. split; [done|].
    apply (addr_map_of_dom _ _ _ (ok_map _ _ Hok)). eauto.
  - intros [Ht (a & Ha & Hin)]. rewrite Ht, Ha in Hja. injection Hja as ->.
    apply (addr_map_of_dom _ _ _ (ok_map _ _ Hok)) in Hin as [d Hd].
    destruct (cfg_ok_block_edges _ _ _ _ Hok Hb Hlt)
      as (r' & obj' & out & Hlast' & Hr' & Hout & _ & _ & Htail).
    rewrite Hlast in Hlast'. injection Hlast' as <-.
    rewrite Hr in Hr'. injection Hr' as <-.
    destruct (Htail Hh Ht) as (taken & Htk & ->).
    unfold taken_edges in Htk. rewrite Hd in Htk.
    destruct Htk as (dobj & bd & rest & _ & _ & _ & _ & ->).
    exists bd.
    assert ((b, bd, J_TRUE) ∈ filter (λ e, e_src e = b) (r_edges res)) as Hf.
    { rewrite Hout. apply elem_of_cons. by left. }
    by apply list_elem_of_filter in Hf as [_ ?].
Qed.

(** ** Further properties of [cfg] *)

(** [breaks_basic_block] raises exactly on a [jnz] or [jz] that has fewer
    than two argument modes; the mnemonic test short-circuits for every
    other instruction. *)
Lemma breaks_None_iff (o : Op) :
  breaks o = None ↔
  mnemonic o ∈ ["jnz"; "jz"]%string ∧ length (argmodes o) ≤ 1.
Proof.
  unfold breaks_basic_block. case_bool_decide as Hm.
  - destruct (argmodes o !! 1) as [a|] eqn:E; simpl.
    + split; [done|]. intros [_ Hl]. apply lookup_lt_Some in E. lia.
    + split; [|done]. intros _. split; [done|]. by apply lookup_ge_None.
  - split; [done|]. naive_solver.
Qed.

Lemma decode_loop_fails (decoded : list Op)
    (st : list OpObj * gmap Z nat * list nat) (o : Op) :
  o ∈ decoded → breaks o = None →
  for_each (decode_step ARGMODE_IMMEDIATE) decoded st = None.
Proof.
  revert st. induction decoded as [|x l IH]; intros [[h m] ops] Hin Hb.
  - by apply elem_of_nil in Hin.
  - simpl. apply elem_of_cons in Hin as [<-|Hin].
    + by rewrite Hb.
    + destruct (breaks x) as [t|]; simpl; [by apply IH|done].
Qed.

(** X1: [cfg] raises an exception exactly when the stream is empty
    ([ops[0]]) or holds a [jnz] or [jz] with fewer than two argument modes
    ([argmodes[1]]). *)
Theorem cfg_raises_iff (decoded : list Op) :
  cfg ARGMODE_IMMEDIATE decode_arg decoded = None ↔
  decoded = []
  ∨ ∃ o, o ∈ decoded ∧ mnemonic o ∈ ["jnz"; "jz"]%string
         ∧ length (argmodes o) ≤ 1.
Proof.
  split.
  - intros Hnone. destruct decoded as [|o0 l]; [by left|]. right.
    destruct (decide (Forall jumps_decoded (o0 :: l))) as [Hdec|Hdec].
    + destruct (cfg_spec (o0 :: l)) as (res & Hres & _); [done|done|congruence].
    + apply not_Forall_Exists in Hdec; [|apply _].
      apply Exists_exists in Hdec as (o & Hin & Ho). exists o. split; [done|].
      apply breaks_None_iff. destruct (breaks o) as [t|] eqn:E; [|done].
      exfalso. apply Ho. intros Hm.
      unfold breaks_basic_block in E. rewrite bool_decide_eq_true_2 in E by done.
      destruct (argmodes o !! 1) as [a|] eqn:Ea; [|done].
      by eapply lookup_lt_Some.
  - intros [->|(o & Hin & Ho)]; [done|]. unfold cfg.
    rewrite (decode_loop_fails decoded _ o Hin); [done|].
    by apply breaks_None_iff.
Qed.

Lemma objs_decoded_lookup decoded P h j o :
  objs decoded P h →
  (decoded !! j = Some o ↔ ∃ obj, h !! j = Some obj ∧ op obj = o).
Proof.
  intros Hobjs. split.
  - intros Hj. destruct (objs_lookup _ _ _ j Hobjs) as [obj Hobj].
    { by eapply lookup_lt_Some. }
    exists obj. split; [done|].
    destruct (proj2 Hobjs j obj Hobj) as (Hd & _). congruence.
  - intros (obj & Hobj & <-). by destruct (proj2 Hobjs j obj Hobj) as (Hd & _).
Qed.

(** X2: [addr_to_op] maps an address to the last object that was decoded at
    that address, and has no other key; when the addresses of the stream are
    distinct, looking up the address of any object gives that object back. *)
Theorem addr_to_op_lookup (decoded : list Op) :
  decoded ≠ [] → Forall jumps_decoded decoded →
  ∃ res, cfg ARGMODE_IMMEDIATE decode_arg decoded = Some res
    ∧ (∀ a j, r_addr_to_op res !! a = Some j ↔
         (∃ obj, r_heap res !! j = Some obj ∧ pc (op obj) = a)
         ∧ ∀ j' obj', j < j' → r_heap res !! j' = Some obj' → pc (op obj') ≠ a)
    ∧ (NoDup (pc <$> decoded) →
       ∀ j obj, r_heap res !! j = Some obj →
         r_addr_to_op res !! pc (op obj) = Some j).
Proof.
  intros Hne Hdec. destruct (cfg_spec decoded Hne Hdec) as (res & Hres & Hok).
  exists res. split; [done|]. destruct Hok as [_ Hm Hobjs _ _]. split.
  - intros a j. rewrite (Hm a j). split.
    + intros (o & Ho & Hpc & Hlast).
      apply (objs_decoded_lookup _ _ _ _ _ Hobjs) in Ho as (obj & Hobj & <-).
      split; [eauto|]. intros j' obj' Hlt Hj'. apply (Hlast j' (op obj') Hlt).
      apply (objs_decoded_lookup _ _ _ _ _ Hobjs). eauto.
    + intros [(obj & Hobj & Hpc) Hlast]. exists (op obj).
      split; [apply (objs_decoded_lookup _ _ _ _ _ Hobjs); eauto|].
      split; [done|]. intros j' o' Hlt Hj'.
      apply (objs_decoded_lookup _ _ _ _ _ Hobjs) in Hj' as (obj' & Hobj' & <-).
      eauto.
  - intros Hnd j obj Hobj. apply (addr_map_of_NoDup _ _ _ _ Hm Hnd).
    exists (op obj). split; [|done].
    apply (objs_decoded_lookup _ _ _ _ _ Hobjs). eauto.
Qed.

(** X3: only the last member of a block can be a tail. *)
Theorem tail_only_last (decoded : list Op) :
  decoded ≠ [] → Forall jumps_decoded decoded →
  ∃ res, cfg ARGMODE_IMMEDIATE decode_arg decoded = Some res
    ∧ ∀ b blk i r obj,
        r_blocks res !! b = Some blk → blk !! i = Some r →
        r_heap res !! r = Some obj → tail obj = true →
        S i = length blk.
Proof.
  intros Hne Hdec. destruct (cfg_spec decoded Hne Hdec) as (res & Hres & Hok).
  exists res. split; [done|]. intros b blk i r obj Hb Hi Hr Ht.
  pose proof (tail_is_last _ _ _ _ _ _ Hok Hb
                (list_elem_of_lookup_2 _ _ _ Hi) Hr Ht) as Hlast.
  rewrite last_lookup in Hlast.
  destruct (concat_eq_seq _ _ _ _ _ (proj1 (ok_blocks _ _ Hok)) Hb) as [a Hseq].
  assert (NoDup blk) as Hnd by (rewrite Hseq; apply NoDup_seq).
  pose proof (NoDup_lookup _ _ _ _ Hnd Hi Hlast) as ->.
  apply lookup_lt_Some in Hi. lia.
Qed.

Lemma filter_ext_in {A : Type} (P Q : A → Prop)
    `{!∀ x, Decision (P x)} `{!∀ x, Decision (Q x)} (l : list A) :
  (∀ x, x ∈ l → P x ↔ Q x) → filter P l = filter Q l.
Proof.
  induction l as [|x l IH]; intros HPQ; [done|].
  rewrite !filter_cons, IH.
  - destruct (decide (P x)) as [HP|HP], (decide (Q x)) as [HQ|HQ]; try done.
    + exfalso. apply HQ, (HPQ x); [by left|done].
    + exfalso. apply HP, (HPQ x); [by left|done].
  - intros y Hy. apply HPQ. by right.
Qed.

Lemma filter_none {A : Type} (P : A → Prop) `{!∀ x, Decision (P x)} (l : list A) :
  (∀ x, x ∈ l → ¬ P x) → filter P l = [].
Proof.
  induction l as [|x l IH]; intros HP; [done|].
  rewrite filter_cons_False by (apply HP; by left).
  apply IH. intros y Hy. apply HP. by right.
Qed.

Lemma length_filter_lookup (h : list OpObj) :
  length (filter (λ o, head o = true) h)
  = length (filter (λ j, head <$> h !! j = Some true) (seq 0 (length h))).
Proof.
  induction h as [|x h IH] using rev_ind; [done|].
  rewrite length_app. simpl. rewrite Nat.add_1_r, seq_S, !filter_app, !length_app.
  simpl. f_equal.
  - rewrite IH. f_equal. apply filter_ext_in. intros j Hj.
    apply elem_of_seq in Hj. by rewrite lookup_app_l by lia.
  - rewrite !filter_cons, !filter_nil, list_lookup_middle by done. simpl.
    destruct (decide (head x = true)) as [Hx|Hx],
             (decide (Some (head x) = Some true)) as [Hy|Hy]; try done.
    + exfalso. apply Hy. by rewrite Hx.
    + exfalso. apply Hx. congruence.
Qed.

Lemma length_filter_concat (P : nat → Prop) `{!∀ x, Decision (P x)}
    (bl : list (list nat)) :
  (∀ blk, blk ∈ bl →
     ∃ r rest, blk = r :: rest ∧ P r ∧ ∀ r', r' ∈ rest → ¬ P r') →
  length (filter P (concat bl)) = length bl.
Proof.
  induction bl as [|blk bl IH]; intros Hbl; [done|].
  simpl. rewrite filter_app, length_app, IH.
  - destruct (Hbl blk) as (r & rest & -> & Hr & Hrest); [by left|].
    rewrite filter_cons_True by done. by rewrite (filter_none P rest).
  - intros blk' Hin. apply Hbl. by right.
Qed.

(** X4: every block starts with a head, and there are as many blocks as there
    are heads. *)
Theorem blocks_count_heads (decoded : list Op) :
  decoded ≠ [] → Forall jumps_decoded decoded →
  ∃ res, cfg ARGMODE_IMMEDIATE decode_arg decoded = Some res
    ∧ (∀ b blk, r_blocks res !! b = Some blk →
         ∃ r rest obj, blk = r :: rest ∧ r_heap res !! r = Some obj
                       ∧ head obj = true)
    ∧ length (r_blocks res)
      = length (filter (λ obj, head obj = true) (r_heap res)).
Proof.
  intros Hne Hdec. destruct (cfg_spec decoded Hne Hdec) as (res & Hres & Hok).
  exists res. split; [done|]. destruct Hok as [_ _ Hobjs Hbl _]. split.
  - intros b blk Hb.
    destruct (proj2 Hbl b blk Hb) as (r & rest & -> & (obj & Hr & Hhd & _) & _).
    by exists r, rest, obj.
  - rewrite length_filter_lookup, (proj1 Hobjs), <- (proj1 Hbl).
    symmetry. apply length_filter_concat. intros blk Hin.
    apply list_elem_of_lookup_1 in Hin as [b Hb].
    destruct (proj2 Hbl b blk Hb)
      as (r & rest & -> & (obj & Hr & Hhd & _) & Hrest).
    exists r, rest. split; [done|]. split; [by rewrite Hr; simpl; rewrite Hhd|].
    intros r' Hr'. destruct (Hrest r' Hr') as (obj' & Hobj' & Hhd' & _).
    rewrite Hobj'. simpl. rewrite Hhd'. done.
Qed.

Lemma length_concat_le (f : nat → list Edge) (k c : nat) :
  (∀ i, i < k → length (f i) ≤ c) → length (concat (f <$> seq 0 k)) ≤ c * k.
Proof.
  induction k as [|k IH]; intros Hf; [simpl; lia|].
  rewrite seq_S, fmap_app, concat_app, length_app. simpl. rewrite app_nil_r.
  assert (length (concat (f <$> seq 0 k)) ≤ c * k) by (apply IH; intros; apply Hf; lia).
  specialize (Hf k). lia.
Qed.

Lemma block_out_le decoded res b :
  cfg_ok decoded res →
  length (filter (λ e, e_src e = b) (r_edges res)) ≤ 2
  ∧ length (filter (λ e, e_kind e = J_TRUE)
              (filter (λ e, e_src e = b) (r_edges res))) ≤ 1.
Proof.
  intros Hok.
  destruct (decide (S b < length (r_blocks res))) as [Hlt|Hge].
  2: { rewrite (cfg_ok_edges_from _ _ _ Hok), bool_decide_eq_false_2 by done.
       simpl. lia. }
  destruct (lookup_lt_is_Some_2 (r_blocks res) b) as [prev Hprev]; [lia|].
  destruct (cfg_ok_block_edges _ _ _ _ Hok Hprev Hlt)
    as (r & obj & out & _ & _ & -> & Hhlt & Hplain & Htail).
  destruct (decide (optype (op obj) = OpHlt)) as [Hh|Hh].
  { rewrite (Hhlt Hh). simpl. lia. }
  destruct (tail obj) eqn:Et.
  - destruct (Htail Hh eq_refl) as (taken & Htk & ->). unfold taken_edges in Htk.
    destruct (r_addr_to_op res !! decode_arg (op obj) 1) as [d|].
    + destruct Htk as (dobj & bd & rest & _ & _ & _ & _ & ->).
      split; [simpl; lia|]. by vm_compute.
    + subst taken. split; [simpl; lia|]. vm_compute. lia.
  - rewrite (Hplain Hh eq_refl). split; [simpl; lia|]. vm_compute. lia.
Qed.

(** X5: at most two edges leave a block, at most one of them of kind [J_TRUE];
    the graph has at most two edges for every block but the last. *)
Theorem out_degree (decoded : list Op) :
  decoded ≠ [] → Forall jumps_decoded decoded →
  ∃ res, cfg ARGMODE_IMMEDIATE decode_arg decoded = Some res
    ∧ (∀ b, length (filter (λ e, e_src e = b) (r_edges res)) ≤ 2
            ∧ length (filter (λ e, e_kind e = J_TRUE)
                        (filter (λ e, e_src e = b) (r_edges res))) ≤ 1)
    ∧ length (r_edges res) ≤ 2 * (length (r_blocks res) - 1).
Proof.
  intros Hne Hdec. destruct (cfg_spec decoded Hne Hdec) as (res & Hres & Hok).
  exists res. split; [done|]. split; [intros b; by eapply block_out_le|].
  rewrite (ok_edges _ _ Hok) at 1. apply length_concat_le. intros i Hi.
  destruct (block_out_le _ _ i Hok) as [Hle _].
  rewrite (cfg_ok_edges_from _ _ _ Hok), bool_decide_eq_true_2 in Hle by lia.
  done.
Qed.

Lemma concat_adjacent (bl : list (list nat)) (s n b : nat)
    (prev cur : list nat) (r c : nat) :
  concat bl = seq s n → bl !! b = Some prev → bl !! S b = Some cur →
  last prev = Some r → cur !! 0 = Some c → c = S r.
Proof.
  revert s n b. induction bl as [|x bl IH]; intros s n b Hcat Hp Hc Hr Hc0; [done|].
  simpl in Hcat. apply app_eq_seq in Hcat as [Hx Hrest].
  destruct b as [|b]; simpl in Hp, Hc.
  - injection Hp as ->. destruct bl as [|y bl]; [done|]. injection Hc as ->.
    simpl in Hrest. apply app_eq_seq in Hrest as [Hy _].
    rewrite Hy in Hc0. apply lookup_seq in Hc0 as [-> _].
    rewrite last_lookup, Hx, length_seq in Hr.
    apply lookup_seq in Hr as [-> Hlt]. lia.
  - eapply IH; done.
Qed.

(** X6: two consecutive blocks are adjacent in the stream, and the first one
    ends where it does for a reason: its last instruction is a tail, or the
    first instruction of the next block is the jump target of a tail. *)
Theorem block_boundary (decoded : list Op) :
  decoded ≠ [] → Forall jumps_decoded decoded →
  ∃ res, cfg ARGMODE_IMMEDIATE decode_arg decoded = Some res
    ∧ ∀ b prev cur r c robj,
        r_blocks res !! b = Some prev → r_blocks res !! S b = Some cur →
        last prev = Some r → cur !! 0 = Some c →
        r_heap res !! r = Some robj →
        c = S r
        ∧ (tail robj = true
           ∨ ∃ t tobj a, r_heap res !! t = Some tobj ∧ tail tobj = true
                         ∧ jump_addr tobj = Some a
                         ∧ r_addr_to_op res !! a = Some c).
Proof.
  intros Hne Hdec. destruct (cfg_spec decoded Hne Hdec) as (res & Hres & Hok).
  exists res. split; [done|]. intros b prev cur r c robj Hp Hc Hr Hc0 Hrobj.
  destruct Hok as [_ Hm Hobjs Hbl _].
  pose proof (concat_adjacent _ _ _ _ _ _ _ _ (proj1 Hbl) Hp Hc Hr Hc0) as ->.
  split; [done|].
  destruct (proj2 Hbl (S b) cur Hc) as (c' & rest & -> & (cobj & Hcobj & Hhd & _) & _).
  injection Hc0 as ->.
  destruct (proj2 Hobjs _ _ Hcobj) as (_ & _ & _ & Hhead).
  apply Hhead in Hhd as [?|[(p & [= <-] & Hp')|(t & o & Ht & Hb & Hmt)]]; [done| |].
  - left. by apply (objs_tail _ _ _ _ _ Hobjs Hrobj).
  - right. apply (objs_decoded_lookup _ _ _ _ _ Hobjs) in Ht as (tobj & Htobj & <-).
    destruct (proj2 Hobjs _ _ Htobj) as (_ & Hbt & Hja & _).
    assert (tail tobj = true) as Htl by congruence.
    rewrite Htl in Hja. exists t, tobj, (decode_arg (op tobj) 1). done.
Qed.

End CfgSpec.



(** ** The specification on the sample programs *)

Lemma prog_a_decoded : Forall jumps_decoded prog_a.
Proof. by_compute. Defined.

Lemma prog_mid_decoded : Forall jumps_decoded prog_mid.
Proof. by_compute. Defined.

Lemma partition_exact_witness :
  prog_a ≠ [] ∧ Forall jumps_decoded prog_a
  ∧ ∃ res, cfg 1 imm_arg prog_a = Some res
      ∧ op <$> r_heap res = prog_a
      ∧ concat (r_blocks res) = r_ops res.
Proof.
  split; [discriminate|]. split; [exact prog_a_decoded|].
  destruct (partition_exact 1 imm_arg prog_a) as (res & Hres & Hh & _ & Hcat & _);
    [discriminate|exact prog_a_decoded|].
  exists res. split; [exact Hres|]. split; [exact Hh|exact Hcat].
Defined.

Lemma tail_flag_iff_witness :
  prog_a ≠ [] ∧ Forall jumps_decoded prog_a
  ∧ ∃ res, cfg 1 imm_arg prog_a = Some res
      ∧ length (r_heap res) = length prog_a.
Proof.
  split; [discriminate|]. split; [exact prog_a_decoded|].
  destruct (tail_flag_iff 1 imm_arg prog_a) as (res & Hres & Hlen & _);
    [discriminate|exact prog_a_decoded|].
  exists res. split; [exact Hres|exact Hlen].
Defined.

Lemma head_flags_witness :
  prog_a ≠ [] ∧ Forall jumps_decoded prog_a ∧ NoDup (pc <$> prog_a)
  ∧ ∃ res, cfg 1 imm_arg prog_a = Some res
      ∧ ∀ obj, r_heap res !! 3 = Some obj → head obj = true.
Proof.
  assert (NoDup (pc <$> prog_a)) as Hnd by by_compute.
  split; [discriminate|]. split; [exact prog_a_decoded|]. split; [exact Hnd|].
  destruct (head_flags 1 imm_arg prog_a) as (res & Hres & _ & Hhd);
    [discriminate|exact prog_a_decoded|exact Hnd|].
  exists res. split; [exact Hres|]. intros obj Hobj.
  apply (Hhd 3 obj Hobj). right; left.
  vm_compute in Hres. injection Hres as <-.
  eexists 2, _. split; [reflexivity|]. split; reflexivity.
Defined.

Lemma halt_no_edges_witness :
  prog_a ≠ [] ∧ Forall jumps_decoded prog_a
  ∧ ∃ res, cfg 1 imm_arg prog_a = Some res
      ∧ filter (λ e, e_src e = 1) (r_edges res) = [].
Proof.
  split; [discriminate|]. split; [exact prog_a_decoded|].
  destruct (halt_no_edges 1 imm_arg prog_a) as (res & Hres & Hhlt);
    [discriminate|exact prog_a_decoded|].
  exists res. split; [exact Hres|].
  vm_compute in Hres. injection Hres as <-.
  eapply (Hhlt 1 [3] 3); reflexivity.
Defined.

Lemma last_block_no_edges_witness :
  prog_self ≠ [] ∧ Forall jumps_decoded prog_self
  ∧ ∃ res, cfg 1 imm_arg prog_self = Some res
      ∧ ∀ e, e ∈ r_edges res → e_src e ≠ length (r_blocks res) - 1.
Proof.
  assert (Forall jumps_decoded prog_self) as Hdec by by_compute.
  split; [discriminate|]. split; [exact Hdec|].
  destruct (last_block_no_edges 1 imm_arg prog_self) as (res & Hres & _ & _ & Hno);
    [discriminate|exact Hdec|].
  exists res. split; [exact Hres|exact Hno].
Defined.

Lemma edge_ids_valid_witness :
  prog_a ≠ [] ∧ Forall jumps_decoded prog_a
  ∧ ∃ res, cfg 1 imm_arg prog_a = Some res
      ∧ ∀ e, e ∈ r_edges res →
          e_src e < length (r_blocks res) ∧ e_dst e < length (r_blocks res).
Proof.
  split; [discriminate|]. split; [exact prog_a_decoded|].
  destruct (edge_ids_valid 1 imm_arg prog_a) as (res & Hres & Hids & _);
    [discriminate|exact prog_a_decoded|].
  exists res. split; [exact Hres|exact Hids].
Defined.

Lemma fallthrough_edge_witness :
  prog_a ≠ [] ∧ Forall jumps_decoded prog_a
  ∧ ∃ res, cfg 1 imm_arg prog_a = Some res
      ∧ filter (λ e, e_kind e ≠ J_TRUE) (filter (λ e, e_src e = 0) (r_edges res))
        = [(0, 1, J_FALSE)].
Proof.
  split; [discriminate|]. split; [exact prog_a_decoded|].
  destruct (fallthrough_edge 1 imm_arg prog_a) as (res & Hres & Hft);
    [discriminate|exact prog_a_decoded|].
  exists res. split; [exact Hres|].
  vm_compute in Hres. injection Hres as <-.
  apply (Hft 0 [0; 1; 2] 2 (mkObj (op_jnz 8 1 0) false true (Some 0%Z) (Some 1)));
    [simpl; lia|reflexivity..|discriminate].
Defined.

Lemma unresolved_target_no_true_edge_witness :
  prog_mid ≠ [] ∧ Forall jumps_decoded prog_mid
  ∧ ∃ res, cfg 1 imm_arg prog_mid = Some res
      ∧ ∀ e, e ∈ r_edges res → e_src e = 0 → e_kind e ≠ J_TRUE.
Proof.
  split; [discriminate|]. split; [exact prog_mid_decoded|].
  destruct (unresolved_target_no_true_edge 1 imm_arg prog_mid) as (res & Hres & Hno);
    [discriminate|exact prog_mid_decoded|].
  exists res. split; [exact Hres|].
  vm_compute in Hres. injection Hres as <-.
  apply (Hno 0 (mkObj (op_jnz 0 1 5) true true (Some 5%Z) (Some 0)) 5%Z 0 [0]);
    [reflexivity..|by_compute|reflexivity|].
  apply elem_of_cons. by left.
Defined.

Lemma single_instruction_witness :
  jumps_decoded (op_hlt 0)
  ∧ ∃ res obj, cfg 1 imm_arg [op_hlt 0] = Some res
      ∧ r_heap res = [obj] ∧ r_blocks res = [[0]] ∧ r_edges res = [].
Proof.
  assert (jumps_decoded (op_hlt 0)) as Hdec by by_compute.
  split; [exact Hdec|].
  destruct (single_instruction 1 imm_arg (op_hlt 0) Hdec)
    as (res & obj & Hres & Hh & _ & _ & _ & Hbl & He).
  exists res, obj. split; [exact Hres|]. split; [exact Hh|]. split; [exact Hbl|exact He].
Defined.

(** C2, on a program whose last block ends in a tail: the program is one
    [jnz] that jumps to its own address.  Its only block ends in a tail
    whose jump address is the address of a decoded instruction, and no edge
    is built. *)
Theorem self_jump_no_edge :
  ∃ res obj, cfg 1 imm_arg prog_self = Some res
    ∧ r_blocks res = [[0]]
    ∧ r_heap res !! 0 = Some obj
    ∧ tail obj = true
    ∧ jump_addr obj = Some (pc (op obj))
    ∧ r_addr_to_op res !! pc (op obj) = Some 0
    ∧ r_edges res = [].
Proof. vm_compute. eexists _, _. repeat split. Qed.

(** C4 as it is stated fails on [prog_next]: the jump of block 0 targets the
    next instruction, and two edges go from block 0 to block 1. *)
Lemma fallthrough_not_only_edge :
  ¬ (∀ res, cfg 1 imm_arg prog_next = Some res →
       ∀ b blk r obj,
         S b < length (r_blocks res) →
         r_blocks res !! b = Some blk → last blk = Some r →
         r_heap res !! r = Some obj → optype (op obj) ≠ OpHlt →
         ∃ k, filter (λ e, e_src e = b ∧ e_dst e = S b) (r_edges res)
                = [(b, S b, k)]
              ∧ (k = J_FALSE ↔ tail obj = true)
              ∧ (tail obj = false → k = J_UNCONDITIONAL)).
Proof.
  intros H.
  eassert (cfg 1 imm_arg prog_next = Some _) as E by (vm_compute; reflexivity).
  destruct (H _ E 0 [0] 0 (mkObj (op_jnz 0 1 3) true true (Some 3%Z) (Some 0)))
    as (k & Hk & _); [simpl; lia|reflexivity..|discriminate|].
  vm_compute in Hk. discriminate Hk.
Qed.

(** C5 as it is stated fails on [prog_invalid]: the jump address of the tail
    is the address of an [OpInvalid] instruction, and the [J_TRUE] edge is
    built. *)
Lemma invalid_target_true_edge :
  ¬ (∀ res, cfg 1 imm_arg prog_invalid = Some res →
       ∀ r obj a b blk,
         r_heap res !! r = Some obj → tail obj = true →
         jump_addr obj = Some a →
         (a ∉ pc <$> prog_invalid
          ∨ ∃ t tobj, r_heap res !! t = Some tobj ∧ pc (op tobj) = a
                      ∧ optype (op tobj) = OpInvalid) →
         r_blocks res !! b = Some blk → r ∈ blk →
         ∀ e, e ∈ r_edges res → e_src e = b → e_kind e ≠ J_TRUE).
Proof.
  intros H.
  eassert (cfg 1 imm_arg prog_invalid = Some _) as E by (vm_compute; reflexivity).
  apply (H _ E 0 (mkObj (op_jnz 0 1 3) true true (Some 3%Z) (Some 0)) 3%Z 0 [0]
           eq_refl eq_refl eq_refl) with (e := (0, 1, J_TRUE)).
  - right. eexists 1, _. split; [reflexivity|]. split; reflexivity.
  - reflexivity.
  - apply elem_of_cons. by left.
  - apply elem_of_cons. by left.
  - reflexivity.
  - reflexivity.
Qed.

(** ** The decoding loop *)

Section ProgramSpec.

Variable ARGMODE_IMMEDIATE : Z.
Variable decode_arg : Op → nat → Z.
Variable fromcode : list Z → Z → Op.

Lemma cfg_unfold (decoded : list Op) :
  cfg ARGMODE_IMMEDIATE decode_arg decoded
  = for_each (decode_step ARGMODE_IMMEDIATE) decoded ([], ∅, [])
      ≫= cfg_from decode_arg.
Proof.
  unfold cfg, cfg_from.
  by destruct (for_each _ decoded _) as [[[h m] ops]|].
Qed.

(** On the instructions that it visits, the loop is the [for] loop of
    [decode_step]; one unit of fuel per instruction is enough. *)
Lemma decode_loop_chain (code : list Z) (decoded : list Op) :
  ∀ fuel pc st,
    chain fromcode code pc decoded → length decoded ≤ fuel →
    decode_loop ARGMODE_IMMEDIATE fromcode fuel code pc st
    = Some (for_each (decode_step ARGMODE_IMMEDIATE) decoded st).
Proof.
  induction decoded as [|o rest IH]; intros fuel pc st Hch Hfuel; simpl in Hch.
  - destruct fuel; simpl; by rewrite bool_decide_eq_false_2 by lia.
  - destruct Hch as (Hlt & -> & Hch). destruct fuel as [|fuel]; [simpl in *; lia|].
    simpl. rewrite bool_decide_eq_true_2 by done.
    destruct (decode_step _ st _) as [st'|]; simpl; [|done].
    apply IH; [done|simpl in *; lia].
Qed.

Lemma chain_exists (code : list Z) (n : nat) :
  (∀ a, (0 ≤ a < Z.of_nat (length code))%Z → (0 < oplength (fromcode code a))%Z) →
  ∀ pc, (0 ≤ pc)%Z → Z.to_nat (Z.of_nat (length code) - pc) ≤ n →
    ∃ decoded, chain fromcode code pc decoded ∧ length decoded ≤ n.
Proof.
  intros Hlen. induction n as [|n IH]; intros pc Hpc Hn.
  - exists []. simpl. split; lia.
  - destruct (decide (pc < Z.of_nat (length code))%Z) as [Hlt|Hge].
    + specialize (Hlen pc ltac:(lia)).
      destruct (IH (pc + oplength (fromcode code pc))%Z) as (rest & Hch & Hl);
        [lia..|].
      exists (fromcode code pc :: rest). simpl. split; [done|lia].
    + exists []. simpl. split; lia.
Qed.

Lemma chain_addresses (code : list Z) (decoded : list Op) :
  (∀ a, (0 ≤ a < Z.of_nat (length code))%Z →
        pc (fromcode code a) = a ∧ (0 < oplength (fromcode code a))%Z) →
  ∀ pc0, (0 ≤ pc0)%Z → chain fromcode code pc0 decoded →
    Forall (λ o, (pc0 ≤ pc o < Z.of_nat (length code))%Z
                 ∧ o = fromcode code (pc o)) decoded
    ∧ ∀ i j oi oj, i < j → decoded !! i = Some oi → decoded !! j = Some oj →
        (pc oi + oplength oi ≤ pc oj)%Z.
Proof.
  intros Hc. induction decoded as [|o rest IH]; intros pc0 Hpc0 Hch.
  - split; [constructor|]. intros i j oi oj _ Hi. done.
  - simpl in Hch. destruct Hch as (Hlt & Ho & Hch).
    destruct (Hc pc0 ltac:(lia)) as [Hpc Hlen]. rewrite <- Ho in Hpc, Hlen.
    destruct (IH (pc0 + oplength o)%Z ltac:(lia) Hch) as [Hall Hinc]. split.
    + constructor; [split; [lia|congruence]|].
      eapply Forall_impl; [exact Hall|]. intros o' [? ?]. split; [lia|done].
    + intros i j oi oj Hij Hi Hj. destruct j as [|j]; [lia|]. simpl in Hj.
      destruct i as [|i]; simpl in Hi.
      * injection Hi as <-.
        apply (Forall_lookup_1 _ _ _ _ Hall) in Hj as [? _]. lia.
      * apply (Hinc i j); [lia|done..].
Qed.

Lemma increasing_NoDup (decoded : list Op) :
  (∀ i j oi oj, i < j → decoded !! i = Some oi → decoded !! j = Some oj →
     (pc oi < pc oj)%Z) →
  NoDup (pc <$> decoded).
Proof.
  intros Hinc. apply NoDup_alt. intros i j a Hi Hj.
  rewrite list_lookup_fmap in Hi, Hj.
  destruct (decoded !! i) as [oi|] eqn:Ei; [|done].
  destruct (decoded !! j) as [oj|] eqn:Ej; [|done].
  simpl in *. simplify_eq.
  destruct (Nat.lt_total i j) as [Hlt|[?|Hlt]]; [|done|].
  - specialize (Hinc i j oi oj Hlt Ei Ej). lia.
  - specialize (Hinc j i oj oi Hlt Ej Ei). lia.
Qed.

(** X7: when every instruction that the decoder yields has a positive length,
    the decoding loop ends within [len(code)] iterations; it has run the
    body on a stream of at most [len(code)] instructions, which is empty
    only for the empty program. *)
Theorem decode_loop_terminates (code : list Z) :
  (∀ a, (0 ≤ a < Z.of_nat (length code))%Z → (0 < oplength (fromcode code a))%Z) →
  ∃ decoded,
    chain fromcode code 0 decoded
    ∧ length decoded ≤ length code
    ∧ (decoded = [] ↔ code = [])
    ∧ ∀ fuel st, length code ≤ fuel →
        decode_loop ARGMODE_IMMEDIATE fromcode fuel code 0 st
        = Some (for_each (decode_step ARGMODE_IMMEDIATE) decoded st).
Proof.
  intros Hlen.
  destruct (chain_exists code (length code) Hlen 0%Z) as (decoded & Hch & Hl);
    [lia..|].
  exists decoded. split; [done|]. split; [done|]. split.
  - destruct decoded as [|o rest]; simpl in Hch.
    + split; [|done]. intros _. destruct code; [done|simpl in *; lia].
    + split; [done|]. intros ->. simpl in *. lia.
  - intros fuel st Hfuel. apply decode_loop_chain; [done|lia].
Qed.

(** X8: an instruction of length 0 whose [decode_step] does not raise keeps the
    loop at the same address for ever. *)
Theorem decode_loop_zero_length (code : list Z) (a : Z) :
  (a < Z.of_nat (length code))%Z →
  oplength (fromcode code a) = 0%Z → jumps_decoded (fromcode code a) →
  ∀ fuel st, decode_loop ARGMODE_IMMEDIATE fromcode fuel code a st = None.
Proof.
  intros Hlt Hz Hdec. induction fuel as [|fuel IH]; intros [[h m] ops]; simpl;
    rewrite bool_decide_eq_true_2 by done; [done|].
  destruct (breaks_is_Some ARGMODE_IMMEDIATE _ Hdec) as [t ->]. simpl.
  rewrite Hz, Z.add_0_r. apply IH.
Qed.

(** X9: from a non-empty program to the blocks and edges: under the contract of
    the decoder (the instruction decoded at an address carries that
    address, has a positive length, and its two argument modes when it is a
    conditional jump) [cfg] returns.  The objects are in strictly increasing
    address order, each one ends where the next begins, and [addr_to_op]
    gives every object back from its address. *)
Theorem cfg_program_spec (program : list Z) :
  program ≠ [] →
  (∀ a, (0 ≤ a < Z.of_nat (length program))%Z →
        pc (fromcode program a) = a
        ∧ (0 < oplength (fromcode program a))%Z
        ∧ jumps_decoded (fromcode program a)) →
  ∃ res,
    (∀ fuel, length program ≤ fuel →
       cfg_program ARGMODE_IMMEDIATE decode_arg fromcode fuel program
       = Some (Some res))
    ∧ chain fromcode program 0 (op <$> r_heap res)
    ∧ (∀ i j oi oj, i < j →
         r_heap res !! i = Some oi → r_heap res !! j = Some oj →
         (pc (op oi) + oplength (op oi) ≤ pc (op oj))%Z)
    ∧ (∀ j obj, r_heap res !! j = Some obj →
         (0 ≤ pc (op obj) < Z.of_nat (length program))%Z
         ∧ op obj = fromcode program (pc (op obj))
         ∧ r_addr_to_op res !! pc (op obj) = Some j).
Proof.
  intros Hne Hc.
  destruct (chain_exists program (length program)) with (pc := 0%Z)
    as (decoded & Hch & Hl); [|lia..|].
  { intros a Ha. by destruct (Hc a Ha) as (_ & ? & _). }
  destruct (chain_addresses program decoded) with (pc0 := 0%Z) as [Hall Hinc];
    [|done|done|].
  { intros a Ha. destruct (Hc a Ha) as (? & ? & _). done. }
  assert (decoded ≠ []) as Hdne.
  { intros ->. simpl in Hch. destruct program; [done|simpl in Hch; lia]. }
  assert (Forall jumps_decoded decoded) as Hdec.
  { eapply Forall_impl; [exact Hall|]. intros o [Ho Heq]. rewrite Heq.
    by apply Hc. }
  assert (NoDup (pc <$> decoded)) as Hnd.
  { apply increasing_NoDup. intros i j oi oj Hij Hi Hj.
    specialize (Hinc i j oi oj Hij Hi Hj).
    apply (Forall_lookup_1 _ _ _ _ Hall) in Hi as [Hi Heq].
    destruct (Hc _ Hi) as (_ & Hpos & _). rewrite <- Heq in Hpos. lia. }
  destruct (cfg_spec ARGMODE_IMMEDIATE decode_arg decoded Hdne Hdec)
    as (res & Hres & Hok).
  pose proof (ok_heap _ _ _ _ Hok) as Hobjs.
  assert (∀ j obj, r_heap res !! j = Some obj → decoded !! j = Some (op obj))
    as Hlook.
  { intros j obj Hj. by destruct (proj2 Hobjs j obj Hj) as (? & _). }
  assert (op <$> r_heap res = decoded) as Hheap.
  { apply list_eq. intros j. rewrite list_lookup_fmap.
    destruct (r_heap res !! j) as [obj|] eqn:Hj; simpl.
    - symmetry. by apply Hlook.
    - symmetry. apply lookup_ge_None. apply lookup_ge_None in Hj.
      destruct Hobjs as [<- _]. done. }
  exists res. split; [|split; [by rewrite Hheap|split]].
  - intros fuel Hfuel. unfold cfg_program.
    rewrite (decode_loop_chain program decoded) by (done || lia). simpl.
    by rewrite <- cfg_unfold, Hres.
  - intros i j oi oj Hij Hi Hj. apply (Hinc i j); [done|by apply Hlook..].
  - intros j obj Hj. pose proof (Hlook j obj Hj) as Hd.
    destruct (Forall_lookup_1 _ _ _ _ Hall Hd) as [? ?].
    split; [done|]. split; [done|].
    apply (addr_map_of_NoDup _ _ _ _ (ok_map _ _ _ _ Hok) Hnd). eauto.
Qed.

End ProgramSpec.

(** ** The name of the output file *)

Lemma rfind_bound (s : string) (c : Ascii.ascii) :
  rfind s c = (-1)%Z ∨ (0 ≤ rfind s c < Z.of_nat (String.length s))%Z.
Proof.
  induction s as [|x s IH]; simpl; [by left|].
  repeat case_bool_decide; lia.
Qed.

Lemma rfind_none (s : string) (c : Ascii.ascii) :
  rfind s c = (-1)%Z ↔ ∀ i, String.get i s ≠ Some c.
Proof.
  induction s as [|x s IH]; simpl.
  - split; [|done]. by intros _ i.
  - destruct (rfind_bound s c) as [Hr|Hr].
    + rewrite bool_decide_eq_true_2 by done. case_bool_decide as Hx.
      * split; [done|]. intros H. specialize (H 0). simpl in H. congruence.
      * split; [|done]. intros _ [|i]; simpl; [congruence|]. by apply IH.
    + rewrite bool_decide_eq_false_2 by lia. split; [lia|].
      intros H. exfalso. assert (rfind s c = (-1)%Z); [|lia].
      apply IH. intros i. apply (H (S i)).
Qed.

Lemma rfind_last (a b : string) (c : Ascii.ascii) :
  rfind b c = (-1)%Z →
  rfind (a +:+ String c b) c = Z.of_nat (String.length a).
Proof.
  intros Hb. induction a as [|x a IH]; simpl.
  - rewrite Hb. by rewrite !bool_decide_eq_true_2.
  - rewrite IH. rewrite bool_decide_eq_false_2 by lia. lia.
Qed.

Lemma substring_append (a b : string) :
  String.substring 0 (String.length a) (a +:+ b) = a.
Proof.
  induction a as [|x a IH]; simpl; [by destruct b|]. by rewrite IH.
Qed.

Lemma out_fname_dot (a b : string) :
  rfind b "."%char = (-1)%Z → out_fname (a +:+ "." +:+ b) = a +:+ ".dot".
Proof.
  intros Hb. unfold out_fname. change ("." +:+ b) with (String "."%char b).
  rewrite (rfind_last a b _ Hb), bool_decide_eq_false_2 by lia.
  by rewrite Nat2Z.id, substring_append.
Qed.

(** X10: the default output name replaces what follows the last dot of the
    input name, the dot included, by [.dot], wherever that dot is; a name
    without a dot gets [.dot] appended. *)
Theorem out_fname_last_dot (a b : string) :
  (∀ i, String.get i b ≠ Some "."%char) →
  out_fname (a +:+ "." +:+ b) = a +:+ ".dot"
  ∧ out_fname b = b +:+ ".dot".
Proof.
  intros Hb. apply rfind_none in Hb. split; [by apply out_fname_dot|].
  unfold out_fname. by rewrite Hb, bool_decide_eq_true_2.
Qed.

Lemma append_cons (x : Ascii.ascii) (a b : string) :
  String x a +:+ b = String x (a +:+ b).
Proof. done. Qed.

Lemma substring_prefix (s : string) (c : Ascii.ascii) :
  rfind s c ≠ (-1)%Z →
  ∃ b, s = String.substring 0 (Z.to_nat (rfind s c)) s +:+ String c b
       ∧ rfind b c = (-1)%Z.
Proof.
  induction s as [|x s IH]; simpl; [done|]. intros Hr.
  destruct (rfind_bound s c) as [Hs|Hs].
  - rewrite Hs in *. rewrite bool_decide_eq_true_2 in * by done.
    case_bool_decide as Hx; [|done]. subst x. simpl. by exists s.
  - rewrite bool_decide_eq_false_2 in * by lia.
    destruct IH as (b & Hb & Hnone); [lia|]. exists b. split; [|done].
    replace (Z.to_nat (rfind s c + 1)) with (S (Z.to_nat (rfind s c))) by lia.
    simpl. by rewrite append_cons, <- Hb.
Qed.

(** X11: every input name is of one of the two forms: it has no dot, or it is
    [a.b] with [b] free of dots; the output name is the input name with
    [.dot] appended in the first case, and [a.dot] in the second. *)
Theorem out_fname_cases (in_fname : string) :
  ((∀ i, String.get i in_fname ≠ Some "."%char)
   ∧ out_fname in_fname = in_fname +:+ ".dot")
  ∨ ∃ a b, in_fname = a +:+ "." +:+ b
           ∧ (∀ i, String.get i b ≠ Some "."%char)
           ∧ out_fname in_fname = a +:+ ".dot".
Proof.
  destruct (decide (rfind in_fname "."%char = (-1)%Z)) as [Hr|Hr].
  - left. pose proof (proj1 (rfind_none _ _) Hr) as Hnone. split; [done|].
    unfold out_fname. by rewrite Hr, bool_decide_eq_true_2.
  - right. destruct (substring_prefix _ _ Hr) as (b & Hs & Hb).
    pose proof (proj1 (rfind_none _ _) Hb) as Hnone.
    exists (String.substring 0 (Z.to_nat (rfind in_fname "."%char)) in_fname), b.
    split; [done|]. split; [done|].
    rewrite Hs at 1. by apply out_fname_dot.
Qed.

(** X12: the default output name of a default output name is that name again, and
    a default output name always ends in [.dot]. *)
Theorem out_fname_idempotent (in_fname : string) :
  out_fname (out_fname in_fname) = out_fname in_fname
  ∧ ∃ stem, out_fname in_fname = stem +:+ ".dot".
Proof.
  assert (∃ stem, out_fname in_fname = stem +:+ ".dot") as [stem Hstem].
  { unfold out_fname. eauto. }
  split; [|eauto]. rewrite Hstem.
  by apply (out_fname_dot stem "dot").
Qed.

(** ** Labels *)

Section DisassembleSpec.

Variable ARGMODE_IMMEDIATE : Z.
Variable ARGMODE_POSITIONAL : Z.
Variable ARGMODE_RELATIVE : Z.
Variable code : list Z.

Abbreviation step :=
  (disassemble_step ARGMODE_IMMEDIATE ARGMODE_POSITIONAL ARGMODE_RELATIVE code).
Abbreviation astep :=
  (arg_step ARGMODE_IMMEDIATE ARGMODE_POSITIONAL ARGMODE_RELATIVE).
Abbreviation disasm :=
  (disassemble ARGMODE_IMMEDIATE ARGMODE_POSITIONAL ARGMODE_RELATIVE code).

Lemma for_each_cons {A St : Type} (body : St → A → option St)
    (x : A) (l : list A) (s : St) :
  for_each body (x :: l) s = body s x ≫= for_each body l.
Proof. done. Qed.

(** X13: an instruction with more than three arguments has no format: the
    listing of a block that holds one raises. *)
Theorem disassemble_too_many_args (block : list Op) (o : Op) :
  o ∈ block → 3 < length (args o) → disasm block = None.
Proof.
  intros Hin Hlen. unfold disassemble.
  assert (∀ st, for_each step block st = None) as ->; [|done].
  induction block as [|x block IH]; intros [d lines].
  - by apply elem_of_nil in Hin.
  - rewrite for_each_cons. apply elem_of_cons in Hin as [<-|Hin].
    + unfold disassemble_step.
      destruct (if bool_decide (optype o = OpInvalid) then _ else _) as [d'|];
        simpl; [|done].
      destruct (length (args o)) as [|[|[|[|n]]]]; try lia. done.
    + destruct (step (d, lines) x) as [st'|]; simpl; [by apply IH|done].
Qed.

Lemma field_mono d1 d2 k s : d1 ⊆ d2 → field d1 k = Some s → field d2 k = Some s.
Proof.
  unfold field. intros Hsub H. destruct (d1 !! k) as [v|] eqn:E; [|done].
  by rewrite (lookup_weaken _ _ _ _ E Hsub).
Qed.

Lemma field_d_mono w d1 d2 k s :
  d1 ⊆ d2 → field_d w d1 k = Some s → field_d w d2 k = Some s.
Proof.
  unfold field_d. intros Hsub H. destruct (d1 !! k) as [v|] eqn:E; [|done].
  by rewrite (lookup_weaken _ _ _ _ E Hsub).
Qed.

Lemma field_s_mono just w d1 d2 k s :
  d1 ⊆ d2 → field_s just w d1 k = Some s → field_s just w d2 k = Some s.
Proof.
  unfold field_s. intros Hsub H. destruct (d1 !! k) as [v|] eqn:E; [|done].
  by rewrite (lookup_weaken _ _ _ _ E Hsub).
Qed.

Lemma fmt_arg_mono d1 d2 i s :
  d1 ⊆ d2 → fmt_arg d1 i = Some s → fmt_arg d2 i = Some s.
Proof.
  unfold fmt_arg. intros Hsub H.
  destruct (field d1 _) as [c|] eqn:Ec; [|done]. simpl in H.
  destruct (field_s _ _ d1 _) as [a|] eqn:Ea; [|done].
  by rewrite (field_mono _ _ _ _ Hsub Ec), (field_s_mono _ _ _ _ _ _ Hsub Ea).
Qed.

Lemma mapM_fmt_arg_mono d1 d2 l sl :
  d1 ⊆ d2 → mapM (fmt_arg d1) l = Some sl → mapM (fmt_arg d2) l = Some sl.
Proof.
  intros Hsub. revert sl. induction l as [|i l IH]; intros sl H; [done|].
  simpl in *. destruct (fmt_arg d1 i) as [s|] eqn:Es; [|done]. simpl in H.
  destruct (mapM (fmt_arg d1) l) as [sl'|] eqn:El; [|done].
  by rewrite (fmt_arg_mono _ _ _ _ Hsub Es), (IH _ eq_refl).
Qed.

Lemma fmt_mono n d1 d2 s : d1 ⊆ d2 → fmt n d1 = Some s → fmt n d2 = Some s.
Proof.
  unfold fmt. intros Hsub H.
  destruct (field d1 "cmain") as [a|] eqn:E1; [|done]. simpl in H.
  destruct (field d1 "cpc") as [b|] eqn:E2; [|done]. simpl in H.
  destruct (field_d 4 d1 "pc") as [c|] eqn:E3; [|done]. simpl in H.
  destruct (field d1 "cmnemonic") as [e|] eqn:E4; [|done]. simpl in H.
  destruct (field_s ljust 4 d1 "mnemonic") as [f|] eqn:E5; [|done]. simpl in H.
  rewrite (field_mono _ _ _ _ Hsub E1), (field_mono _ _ _ _ Hsub E2),
    (field_d_mono _ _ _ _ _ Hsub E3), (field_mono _ _ _ _ Hsub E4),
    (field_s_mono _ _ _ _ _ _ Hsub E5). simpl.
  destruct n as [|n].
  - destruct (field d1 "raw") as [r|] eqn:E6; [|done].
    by rewrite (field_mono _ _ _ _ Hsub E6).
  - destruct (mapM (fmt_arg d1) (seq 1 (S n))) as [sl|] eqn:E6; [|done].
    by rewrite (mapM_fmt_arg_mono _ _ _ _ Hsub E6).
Qed.

Lemma astep_mono d1 d2 x : d1 ⊆ d2 → astep d1 x ⊆ astep d2 x.
Proof.
  intros Hsub. destruct x as [i [a m]]. unfold arg_step.
  repeat case_bool_decide; try done; by do 2 apply insert_mono.
Qed.

Lemma foldl_astep_mono l d1 d2 : d1 ⊆ d2 → foldl astep d1 l ⊆ foldl astep d2 l.
Proof.
  revert d1 d2. induction l as [|x l IH]; intros d1 d2 Hsub; [done|].
  simpl. by apply IH, astep_mono.
Qed.

Lemma fmts_lookup l f : fmts !! l = Some f → f = fmt l.
Proof. destruct l as [|[|[|[|l]]]]; simpl; intros H; by simplify_eq. Qed.

Lemma step_mono d1 d2 ls1 ls2 o d1' ls1' :
  d1 ⊆ d2 → step (d1, ls1) o = Some (d1', ls1') →
  ∃ line d2', ls1' = ls1 ++ [line]
    ∧ step (d2, ls2) o = Some (d2', ls2 ++ [line]) ∧ d1' ⊆ d2'.
Proof.
  intros Hsub. unfold disassemble_step.
  set (ps := zip (seq 1 (length (args o))) (zip (args o) (argmodes o))).
  assert (∀ e1 e2, e1 ⊆ e2 →
    fmts !! length (args o) ≫= (λ f, f (foldl astep e1 ps)
       ≫= λ line, Some (foldl astep e1 ps, ls1 ++ [line])) = Some (d1', ls1') →
    ∃ line d2', ls1' = ls1 ++ [line]
      ∧ fmts !! length (args o) ≫= (λ f, f (foldl astep e2 ps)
           ≫= λ line, Some (foldl astep e2 ps, ls2 ++ [line]))
        = Some (d2', ls2 ++ [line])
      ∧ d1' ⊆ d2') as Hrest.
  { intros e1 e2 He H.
    destruct (fmts !! length (args o)) as [f|] eqn:Ef; [|done]. simpl in *.
    apply fmts_lookup in Ef as ->.
    destruct (fmt _ (foldl astep e1 ps)) as [line|] eqn:El; [|done].
    simpl in H. injection H as <- <-.
    pose proof (foldl_astep_mono ps _ _ He) as Hf.
    rewrite (fmt_mono _ _ _ _ Hf El). simpl. eauto. }
  case_bool_decide.
  - destruct (py_index code (pc o)) as [v|]; simpl; [|done].
    apply Hrest. by do 5 apply insert_mono.
  - simpl. apply Hrest. by do 4 apply insert_mono.
Qed.

(** *** Keys *)

Lemma is_str_insert d k k' s : is_str d k → is_str (<[k' := VStr s]> d) k.
Proof.
  intros [s' Hs]. destruct (decide (k' = k)) as [->|Hne].
  - exists s. by rewrite lookup_insert_eq.
  - exists s'. by rewrite lookup_insert_ne.
Qed.

Lemma is_str_insert_eq d k s : is_str (<[k := VStr s]> d) k.
Proof. exists s. by rewrite lookup_insert_eq. Qed.

Lemma argkey_ne (i : nat) (k : string) :
  k ∈ ["pc"; "cmain"; "cpc"]%string →
  "arg" +:+ pretty i ≠ k ∧ "carg" +:+ pretty i ≠ k.
Proof.
  intros Hk. repeat (apply elem_of_cons in Hk as [->|Hk]);
    [| | |by apply elem_of_nil in Hk]; split; intros [=].
Qed.

Lemma astep_is_str d x k : is_str d k → is_str (astep d x) k.
Proof.
  intros Hk. destruct x as [i [a m]]. unfold arg_step.
  repeat case_bool_decide; try done; by do 2 apply is_str_insert.
Qed.

Lemma astep_sets d i a m :
  m = ARGMODE_IMMEDIATE ∨ m = ARGMODE_POSITIONAL ∨ m = ARGMODE_RELATIVE →
  is_str (astep d (i, (a, m))) ("arg" +:+ pretty i)
  ∧ is_str (astep d (i, (a, m))) ("carg" +:+ pretty i).
Proof.
  intros Hm. unfold arg_step.
  repeat case_bool_decide;
    try (split; [apply is_str_insert, is_str_insert_eq|apply is_str_insert_eq]).
  naive_solver.
Qed.

Lemma astep_other d x k :
  k ∈ ["pc"; "cmain"; "cpc"]%string → astep d x !! k = d !! k.
Proof.
  intros Hk. destruct x as [i [a m]]. destruct (argkey_ne i k Hk) as [H1 H2].
  unfold arg_step. repeat case_bool_decide; try done;
    by rewrite !lookup_insert_ne by done.
Qed.

Lemma foldl_astep_is_str ps d k : is_str d k → is_str (foldl astep d ps) k.
Proof.
  revert d. induction ps as [|x ps IH]; intros d Hk; [done|].
  simpl. by apply IH, astep_is_str.
Qed.

Lemma foldl_astep_other ps d k :
  k ∈ ["pc"; "cmain"; "cpc"]%string → foldl astep d ps !! k = d !! k.
Proof.
  intros Hk. revert d. induction ps as [|x ps IH]; intros d; [done|].
  simpl. by rewrite IH, astep_other.
Qed.

Lemma foldl_astep_sets ps d i a m :
  (i, (a, m)) ∈ ps →
  m = ARGMODE_IMMEDIATE ∨ m = ARGMODE_POSITIONAL ∨ m = ARGMODE_RELATIVE →
  is_str (foldl astep d ps) ("arg" +:+ pretty i)
  ∧ is_str (foldl astep d ps) ("carg" +:+ pretty i).
Proof.
  intros Hin Hm. revert d. induction ps as [|x ps IH]; intros d.
  - by apply elem_of_nil in Hin.
  - simpl. apply elem_of_cons in Hin as [<-|Hin]; [|by apply IH].
    destruct (astep_sets d i a m Hm). split; by apply foldl_astep_is_str.
Qed.

Lemma fmt_is_Some (l : nat) (d : gmap string FmtVal) (z : Z) :
  is_Some (d !! "cmain") → is_Some (d !! "cpc") → d !! "pc" = Some (VInt z) →
  is_str d "cmnemonic" → is_str d "mnemonic" → is_str d "raw" →
  (∀ i, i ∈ seq 1 l →
     is_str d ("arg" +:+ pretty i) ∧ is_str d ("carg" +:+ pretty i)) →
  is_Some (fmt l d).
Proof.
  intros [v1 H1] [v2 H2] H3 [s4 H4] [s5 H5] [s6 H6] Hargs.
  unfold fmt, field, field_d, field_s. rewrite H1, H2, H3, H4, H5. simpl.
  destruct l as [|l].
  - rewrite H6. simpl. eauto.
  - destruct (mapM_is_Some_2 (fmt_arg d) (seq 1 (S l))) as [argl Hargl].
    { apply Forall_forall. intros i Hi.
      destruct (Hargs i Hi) as [[sa Ha] [sc Hc]].
      unfold fmt_arg, field, field_s. simpl. rewrite Ha, Hc. simpl. eauto. }
    rewrite Hargl. simpl. eauto.
Qed.

Lemma fmtargs_fixed_subseteq (d : gmap string FmtVal) :
  d !! "cmain" = Some (VStr "blue4") → d !! "cpc" = Some (VStr "gray50") →
  fmtargs_fixed ⊆ d.
Proof.
  intros H1 H2. apply map_subseteq_spec. intros k v. unfold fmtargs_fixed.
  rewrite !lookup_insert_Some, lookup_empty. naive_solver.
Qed.

Lemma step_base (o : Op) (ls : list string) :
  renderable ARGMODE_IMMEDIATE ARGMODE_POSITIONAL ARGMODE_RELATIVE code o →
  ∃ d' line, step (fmtargs_fixed, ls) o = Some (d', ls ++ [line])
    ∧ fmtargs_fixed ⊆ d'.
Proof.
  intros (Hl3 & Hlm & Hknown & Hinv). unfold disassemble_step.
  set (ps := zip (seq 1 (length (args o))) (zip (args o) (argmodes o))).
  set (d0 := <["raw":=VStr EmptyString]>
               (<["mnemonic":=VStr (mnemonic o)]>
                  (<["pc":=VInt (pc o)]> fmtargs_fixed))).
  assert (∃ d1,
    (if bool_decide (optype o = OpInvalid)
     then py_index code (pc o) ≫= λ v,
            Some (<["raw":=VStr (" " +:+ font "gray" (pretty v))]>
                    (<["cmnemonic":=VStr "crimson"]> d0))
     else Some (<["cmnemonic":=VStr "blue3"]> d0)) = Some d1
    ∧ d1 !! "pc" = Some (VInt (pc o))
    ∧ d1 !! "cmain" = Some (VStr "blue4")
    ∧ d1 !! "cpc" = Some (VStr "gray50")
    ∧ is_str d1 "cmnemonic" ∧ is_str d1 "mnemonic" ∧ is_str d1 "raw")
    as (d1 & -> & Hpc & Hcmain & Hcpc & Hcmn & Hmn & Hraw).
  { assert (d0 !! "pc" = Some (VInt (pc o))
            ∧ d0 !! "cmain" = Some (VStr "blue4")
            ∧ d0 !! "cpc" = Some (VStr "gray50")
            ∧ is_str d0 "mnemonic" ∧ is_str d0 "raw") as (? & ? & ? & ? & ?).
    { unfold d0, fmtargs_fixed. split_and!.
      - by rewrite !lookup_insert_ne, lookup_insert_eq by done.
      - by rewrite !lookup_insert_ne, lookup_insert_eq by done.
      - by rewrite !lookup_insert_ne, lookup_insert_eq by done.
      - apply is_str_insert, is_str_insert_eq.
      - apply is_str_insert_eq. }
    case_bool_decide.
    - destruct (Hinv ltac:(done)) as [v ->]. simpl. eexists. split; [done|].
      split_and!.
      + by rewrite !lookup_insert_ne by done.
      + by rewrite !lookup_insert_ne by done.
      + by rewrite !lookup_insert_ne by done.
      + apply is_str_insert, is_str_insert_eq.
      + by do 2 apply is_str_insert.
      + apply is_str_insert_eq.
    - eexists. split; [done|]. split_and!.
      + by rewrite !lookup_insert_ne by done.
      + by rewrite !lookup_insert_ne by done.
      + by rewrite !lookup_insert_ne by done.
      + apply is_str_insert_eq.
      + by apply is_str_insert.
      + by apply is_str_insert. }
  simpl.
  assert (fmts !! length (args o) = Some (fmt (length (args o)))) as ->.
  { destruct (length (args o)) as [|[|[|[|l]]]]; try done. lia. }
  simpl.
  destruct (fmt_is_Some (length (args o)) (foldl astep d1 ps) (pc o))
    as [line Hline].
  - rewrite foldl_astep_other, Hcmain by set_solver. eauto.
  - rewrite foldl_astep_other, Hcpc by set_solver. eauto.
  - by rewrite foldl_astep_other by set_solver.
  - by apply foldl_astep_is_str.
  - by apply foldl_astep_is_str.
  - by apply foldl_astep_is_str.
  - intros i Hi. apply elem_of_seq in Hi.
    destruct (lookup_lt_is_Some_2 (args o) (i - 1)) as [a Ha]; [lia|].
    destruct (lookup_lt_is_Some_2 (argmodes o) (i - 1)) as [m Hm]; [lia|].
    apply (foldl_astep_sets ps _ i a m).
    + apply (list_elem_of_lookup_2 _ (i - 1)). unfold ps.
      apply lookup_zip_with_Some. exists i, (a, m). split; [done|]. split.
      * apply lookup_seq. lia.
      * apply lookup_zip_with_Some. by exists a, m.
    + by apply (Forall_lookup_1 _ _ _ _ Hknown Hm).
  - rewrite Hline. simpl. eexists _, _. split; [done|].
    apply fmtargs_fixed_subseteq.
    + by rewrite foldl_astep_other by set_solver.
    + by rewrite foldl_astep_other by set_solver.
Qed.

Lemma fmtargs_fixed_fmtargs0 : fmtargs_fixed ⊆ fmtargs0.
Proof. by apply fmtargs_fixed_subseteq. Qed.

Lemma disasm_single (o : Op) (d : gmap string FmtVal) (line : string) :
  step (fmtargs_fixed, []) o = Some (d, [] ++ [line]) →
  disasm [o] = Some ("<" +:+ line +:+ ">").
Proof.
  intros Hstep. unfold disassemble. rewrite for_each_cons.
  destruct (step_mono _ fmtargs0 [] [] o _ _ fmtargs_fixed_fmtargs0 Hstep)
    as (line' & d' & Heq & -> & _).
  simpl in Heq. injection Heq as <-. done.
Qed.

Lemma for_each_step_lines (block : list Op) :
  Forall (renderable ARGMODE_IMMEDIATE ARGMODE_POSITIONAL ARGMODE_RELATIVE code)
    block →
  ∀ d ls, fmtargs_fixed ⊆ d →
    ∃ lines d',
      for_each step block (d, ls) = Some (d', ls ++ lines)
      ∧ Forall2 (λ o line, disasm [o] = Some ("<" +:+ line +:+ ">")) block lines.
Proof.
  induction 1 as [|o block Ho Hall IH]; intros d ls Hsub.
  - exists [], d. by rewrite app_nil_r.
  - destruct (step_base o [] Ho) as (d1 & line & Hstep & Hfix).
    destruct (step_mono _ d [] ls o _ _ Hsub Hstep)
      as (line' & d2 & Heq & Hstep' & Hsub').
    simpl in Heq. injection Heq as <-.
    destruct (IH d2 (ls ++ [line])) as (lines & d' & Hrun & Hlines).
    { by etrans. }
    exists (line :: lines), d'. rewrite for_each_cons, Hstep'. simpl.
    rewrite Hrun, <- app_assoc. split; [done|].
    constructor; [|done]. by eapply disasm_single.
Qed.

Lemma disasm_lines (block : list Op) :
  Forall (renderable ARGMODE_IMMEDIATE ARGMODE_POSITIONAL ARGMODE_RELATIVE code)
    block →
  ∃ lines,
    Forall2 (λ o line, disasm [o] = Some ("<" +:+ line +:+ ">")) block lines
    ∧ disasm block = Some ("<" +:+ String.concat EmptyString lines +:+ ">").
Proof.
  intros Hall.
  destruct (for_each_step_lines block Hall fmtargs0 [] fmtargs_fixed_fmtargs0)
    as (lines & d' & Hrun & Hlines).
  exists lines. split; [done|]. unfold disassemble. by rewrite Hrun.
Qed.

(** X14: the listing of a block of well-formed instructions is the
    concatenation, between [<] and [>], of the lines that each instruction
    gets when it is listed alone: nothing that the dictionary [fmtargs]
    keeps from one instruction shows in the line of another. *)
Theorem disassemble_lines (block : list Op) :
  Forall (renderable ARGMODE_IMMEDIATE ARGMODE_POSITIONAL ARGMODE_RELATIVE code)
    block →
  ∃ lines,
    Forall2 (λ o line, disasm [o] = Some ("<" +:+ line +:+ ">")) block lines
    ∧ disasm block = Some ("<" +:+ String.concat EmptyString lines +:+ ">").
Proof. apply disasm_lines. Qed.

(** *** The graph *)

Variable decode_arg : Op → nat → Z.

Abbreviation renderable' :=
  (renderable ARGMODE_IMMEDIATE ARGMODE_POSITIONAL ARGMODE_RELATIVE code).
Abbreviation cfg_ok' := (cfg_ok ARGMODE_IMMEDIATE decode_arg).

Lemma block_ops decoded res blk :
  cfg_ok' decoded res → blk ∈ r_blocks res →
  ∃ ops, mapM (λ r, op <$> r_heap res !! r) blk = Some ops
    ∧ Forall2 (λ r o, decoded !! r = Some o) blk ops.
Proof.
  intros Hok Hin. apply list_elem_of_lookup_1 in Hin as [b Hb].
  destruct (mapM_is_Some_2 (λ r, op <$> r_heap res !! r) blk) as [ops Hops].
  { apply Forall_forall. intros r Hr.
    destruct (block_ok_member _ _ _ r (proj2 (ok_blocks _ _ _ _ Hok) b blk Hb) Hr)
      as (obj & Hobj & _).
    simpl. rewrite Hobj. simpl. eauto. }
  exists ops. split; [done|]. apply mapM_Some_1 in Hops.
  eapply Forall2_impl; [done|]. intros r o Hro. simpl in Hro.
  destruct (r_heap res !! r) as [obj|] eqn:E; [|done]. simpl in Hro.
  injection Hro as <-.
  by destruct (proj2 (ok_heap _ _ _ _ Hok) r obj E) as (Hd & _).
Qed.

Lemma blocks_lines decoded res (bl : list (list nat)) :
  cfg_ok' decoded res → Forall renderable' decoded →
  (∀ blk, blk ∈ bl → blk ∈ r_blocks res) →
  ∃ ls,
    Forall2 (λ blk l,
      ∃ ops, mapM (λ r, op <$> r_heap res !! r) blk = Some ops
        ∧ disasm ops = Some ("<" +:+ String.concat EmptyString l +:+ ">")
        ∧ length l = length blk) bl ls
    ∧ Forall2 (λ r line, ∃ o, decoded !! r = Some o
                 ∧ disasm [o] = Some ("<" +:+ line +:+ ">"))
        (concat bl) (concat ls).
Proof.
  intros Hok Hren. induction bl as [|blk bl IH]; intros Hbl.
  - exists []. split; constructor.
  - destruct IH as (ls & Hls & Hcat); [intros; apply Hbl; by right|].
    destruct (block_ops decoded res blk Hok) as (ops & Hops & Hro);
      [apply Hbl; by left|].
    destruct (disasm_lines ops) as (l & Hl & Hlabel).
    { apply Forall_forall. intros o Ho.
      apply list_elem_of_lookup_1 in Ho as [i Hi].
      destruct (Forall2_lookup_r _ _ _ _ _ Hro Hi) as (r & _ & Hr).
      by apply (Forall_lookup_1 _ _ _ _ Hren Hr). }
    exists (l :: ls). split.
    + constructor; [|done]. exists ops. split; [done|]. split; [done|].
      apply Forall2_length in Hro, Hl. lia.
    + simpl. apply Forall2_app; [|done].
      apply Forall2_same_length_lookup_2.
      { apply Forall2_length in Hro, Hl. lia. }
      intros i r line Hr Hline.
      destruct (Forall2_lookup_l _ _ _ _ _ Hro Hr) as (o & Ho & Hd).
      exists o. split; [done|].
      by destruct (Forall2_lookup_lr _ _ _ _ _ _ Hl Ho Hline).
Qed.

Lemma mapM_total {A B : Type} (f : A → option B) (g : A → B) (l : list A) :
  (∀ x, f x = Some (g x)) → mapM f l = Some (g <$> l).
Proof.
  intros Hf. induction l as [|x l IH]; [done|].
  simpl. by rewrite Hf, IH.
Qed.

(** X15: the graph of a non-empty stream of well-formed instructions: [cfg]
    builds it without an exception.  It has one node per block, numbered in
    block order; the label of a node has one line per member of its block,
    and the lines of all the labels, in node order, are the lines of the
    instructions of the stream, each one once and in address order.  Every
    edge is drawn, in its colour, between two of these nodes. *)
Theorem graph_spec (decoded : list Op) :
  decoded ≠ [] → Forall jumps_decoded decoded → Forall renderable' decoded →
  ∃ res ls,
    cfg ARGMODE_IMMEDIATE decode_arg decoded = Some res
    ∧ draw ARGMODE_IMMEDIATE ARGMODE_POSITIONAL ARGMODE_RELATIVE code res
      = Some (mkGraph
          (zip_with (λ i l, (i, "<" +:+ String.concat EmptyString l +:+ ">"))
                    (seq 0 (length ls)) ls)
          ((λ e, (e_src e, e_dst e,
                  match e_kind e with
                  | J_UNCONDITIONAL => "grey30"
                  | J_TRUE => "green3"
                  | J_FALSE => "red"
                  end)) <$> r_edges res))
    ∧ Forall2 (λ blk l, length l = length blk) (r_blocks res) ls
    ∧ Forall2 (λ o line, disasm [o] = Some ("<" +:+ line +:+ ">"))
        decoded (concat ls)
    ∧ ∀ e, e ∈ r_edges res → e_src e < length ls ∧ e_dst e < length ls.
Proof.
  intros Hne Hdec Hren.
  destruct (cfg_spec ARGMODE_IMMEDIATE decode_arg decoded Hne Hdec)
    as (res & Hres & Hok).
  destruct (blocks_lines decoded res (r_blocks res) Hok Hren) as (ls & Hls & Hcat);
    [done|].
  pose proof (Forall2_length _ _ _ Hls) as Hlen.
  exists res, ls. split; [done|]. split; [|split; [|split]].
  - unfold draw.
    assert (mapM (λ ib : nat * list nat,
              mapM (λ r, op <$> r_heap res !! r) ib.2 ≫= λ block,
                disasm block ≫= λ label, Some (ib.1, label))
              (zip (seq 0 (length (r_blocks res))) (r_blocks res))
            = Some (zip_with
                (λ i l, (i, "<" +:+ String.concat EmptyString l +:+ ">"))
                (seq 0 (length ls)) ls)) as ->.
    { apply mapM_Some_2, Forall2_same_length_lookup_2.
      { rewrite !length_zip_with, !length_seq. lia. }
      intros i [i' blk] node Hib Hnode.
      apply lookup_zip_with_Some in Hib as (i1 & blk1 & [= -> ->] & Hi1 & Hblk).
      apply lookup_zip_with_Some in Hnode as (i2 & l & -> & Hi2 & Hl).
      apply lookup_seq in Hi1 as [-> _]. apply lookup_seq in Hi2 as [-> _].
      destruct (Forall2_lookup_lr _ _ _ _ _ _ Hls Hblk Hl) as (ops & Hops & Hlab & _).
      simpl. rewrite Hops. simpl. by rewrite Hlab. }
    simpl. rewrite (mapM_total _ (λ e, (e_src e, e_dst e,
                  match e_kind e with
                  | J_UNCONDITIONAL => "grey30"
                  | J_TRUE => "green3"
                  | J_FALSE => "red"
                  end))); [done|].
    intros e. by destruct (e_kind e).
  - eapply Forall2_impl; [done|]. by intros blk l (_ & _ & _ & ?).
  - rewrite (proj1 (ok_blocks _ _ _ _ Hok)) in Hcat.
    apply Forall2_same_length_lookup_2.
    { apply Forall2_length in Hcat. rewrite length_seq in Hcat. done. }
    intros i o line Ho Hline.
    destruct (Forall2_lookup_r _ _ _ _ _ Hcat Hline) as (r & Hr & o' & Ho' & HR).
    apply lookup_seq in Hr as [-> _]. simpl in Ho'. congruence.
  - intros e He. rewrite <- Hlen.
    destruct (edge_cases _ _ _ _ _ Hok He)
      as (prev & r & obj & Hlt & _ & _ & _ & _ & Hcases).
    split; [lia|].
    destruct Hcases
      as [[_ ->]|[[_ ->]|[_ (d & dobj & bd & rest & _ & _ & _ & _ & Hbd & ->)]]];
      simpl; [done|done|].
    by eapply lookup_lt_Some.
Qed.

End DisassembleSpec.

(** ** The further properties on the sample programs *)

Lemma addr_to_op_lookup_witness :
  prog_a ≠ [] ∧ Forall jumps_decoded prog_a
  ∧ ∃ res, cfg 1 imm_arg prog_a = Some res
      ∧ r_addr_to_op res !! 8%Z = Some 2.
Proof.
  split; [discriminate|]. split; [exact prog_a_decoded|].
  destruct (addr_to_op_lookup 1 imm_arg prog_a) as (res & Hres & _ & Hback);
    [discriminate|exact prog_a_decoded|].
  exists res. split; [exact Hres|].
  assert (NoDup (pc <$> prog_a)) as Hnd by by_compute.
  specialize (Hback Hnd 2 (mkObj (op_jnz 8 1 0) false true (Some 0%Z) (Some 1))).
  vm_compute in Hres. injection Hres as <-. apply Hback. reflexivity.
Defined.

Lemma tail_only_last_witness :
  prog_a ≠ [] ∧ Forall jumps_decoded prog_a
  ∧ ∃ res, cfg 1 imm_arg prog_a = Some res
      ∧ ∀ blk, r_blocks res !! 0 = Some blk → blk !! 2 = Some 2 →
          3 = length blk.
Proof.
  split; [discriminate|]. split; [exact prog_a_decoded|].
  destruct (tail_only_last 1 imm_arg prog_a) as (res & Hres & Hlast);
    [discriminate|exact prog_a_decoded|].
  exists res. split; [exact Hres|]. intros blk Hblk Hi.
  apply (Hlast 0 blk 2 2 (mkObj (op_jnz 8 1 0) false true (Some 0%Z) (Some 1)));
    [exact Hblk|exact Hi| |reflexivity].
  vm_compute in Hres. injection Hres as <-. reflexivity.
Defined.

Lemma blocks_count_heads_witness :
  prog_a ≠ [] ∧ Forall jumps_decoded prog_a
  ∧ ∃ res, cfg 1 imm_arg prog_a = Some res
      ∧ length (r_blocks res)
        = length (filter (λ obj, head obj = true) (r_heap res)).
Proof.
  split; [discriminate|]. split; [exact prog_a_decoded|].
  destruct (blocks_count_heads 1 imm_arg prog_a) as (res & Hres & _ & Hcount);
    [discriminate|exact prog_a_decoded|].
  exists res. split; [exact Hres|exact Hcount].
Defined.

Lemma out_degree_witness :
  prog_a ≠ [] ∧ Forall jumps_decoded prog_a
  ∧ ∃ res, cfg 1 imm_arg prog_a = Some res
      ∧ length (r_edges res) ≤ 2 * (length (r_blocks res) - 1).
Proof.
  split; [discriminate|]. split; [exact prog_a_decoded|].
  destruct (out_degree 1 imm_arg prog_a) as (res & Hres & _ & Hle);
    [discriminate|exact prog_a_decoded|].
  exists res. split; [exact Hres|exact Hle].
Defined.

Lemma block_boundary_witness :
  prog_invalid ≠ [] ∧ Forall jumps_decoded prog_invalid
  ∧ ∃ res, cfg 1 imm_arg prog_invalid = Some res
      ∧ ∀ robj, r_heap res !! 0 = Some robj → tail robj = true.
Proof.
  assert (Forall jumps_decoded prog_invalid) as Hdec by by_compute.
  split; [discriminate|]. split; [exact Hdec|].
  destruct (block_boundary 1 imm_arg prog_invalid) as (res & Hres & Hb);
    [discriminate|exact Hdec|].
  exists res. split; [exact Hres|]. intros robj Hrobj.
  specialize (Hb 0 [0] [1; 2] 0 1 robj).
  vm_compute in Hres. injection Hres as <-.
  injection Hrobj as <-. reflexivity.
Defined.

Lemma toy_fromcode_contract (code : list Z) (a : Z) :
  pc (toy_fromcode code a) = a
  ∧ (0 < oplength (toy_fromcode code a))%Z
  ∧ jumps_decoded (toy_fromcode code a).
Proof.
  unfold toy_fromcode. destruct (code !! Z.to_nat a) as [v|];
    repeat case_bool_decide; split_and!; try done;
    unfold jumps_decoded; simpl; intros Hmn; try lia;
    repeat (apply elem_of_cons in Hmn as [?|Hmn]; [done|]);
    by apply elem_of_nil in Hmn.
Defined.

Lemma decode_loop_terminates_witness :
  (∀ a, (0 ≤ a < Z.of_nat (length code_loop))%Z →
        (0 < oplength (toy_fromcode code_loop a))%Z)
  ∧ ∃ decoded, chain toy_fromcode code_loop 0 decoded
      ∧ length decoded ≤ length code_loop.
Proof.
  assert (∀ a, (0 ≤ a < Z.of_nat (length code_loop))%Z →
               (0 < oplength (toy_fromcode code_loop a))%Z) as Hc.
  { intros a _. apply toy_fromcode_contract. }
  split; [exact Hc|].
  destruct (decode_loop_terminates 1 toy_fromcode code_loop Hc)
    as (decoded & Hch & Hlen & _).
  exists decoded. split; [exact Hch|exact Hlen].
Defined.

Lemma decode_loop_zero_length_witness :
  (0 < Z.of_nat (length code_loop))%Z
  ∧ oplength (stuck_fromcode code_loop 0) = 0%Z
  ∧ jumps_decoded (stuck_fromcode code_loop 0)
  ∧ decode_loop 1 stuck_fromcode 1000 code_loop 0 ([], ∅, []) = None.
Proof.
  assert (jumps_decoded (stuck_fromcode code_loop 0)) as Hdec by by_compute.
  split; [simpl; lia|]. split; [reflexivity|]. split; [exact Hdec|].
  apply (decode_loop_zero_length 1 stuck_fromcode code_loop 0);
    [simpl; lia|reflexivity|exact Hdec].
Defined.

Lemma cfg_program_spec_witness :
  code_loop ≠ []
  ∧ (∀ a, (0 ≤ a < Z.of_nat (length code_loop))%Z →
          pc (toy_fromcode code_loop a) = a
          ∧ (0 < oplength (toy_fromcode code_loop a))%Z
          ∧ jumps_decoded (toy_fromcode code_loop a))
  ∧ ∃ res, cfg_program 1 imm_arg toy_fromcode 4 code_loop = Some (Some res)
      ∧ r_blocks res = [[0]; [1]].
Proof.
  assert (∀ a, (0 ≤ a < Z.of_nat (length code_loop))%Z →
          pc (toy_fromcode code_loop a) = a
          ∧ (0 < oplength (toy_fromcode code_loop a))%Z
          ∧ jumps_decoded (toy_fromcode code_loop a)) as Hc.
  { intros a _. apply toy_fromcode_contract. }
  split; [discriminate|]. split; [exact Hc|].
  destruct (cfg_program_spec 1 imm_arg toy_fromcode code_loop) as (res & Hres & _);
    [discriminate|exact Hc|].
  exists res. specialize (Hres 4 ltac:(simpl; lia)). split; [exact Hres|].
  vm_compute in Hres. injection Hres as <-. reflexivity.
Defined.

Lemma out_fname_last_dot_witness :
  (∀ i, String.get i "txt" ≠ Some "."%char)
  ∧ out_fname "day.07/input.txt" = "day.07/input.dot"%string.
Proof.
  assert (∀ i, String.get i "txt" ≠ Some "."%char) as Hb.
  { intros [|[|[|i]]]; simpl; discriminate. }
  split; [exact Hb|].
  exact (proj1 (out_fname_last_dot "day.07/input" "txt" Hb)).
Defined.

Lemma disassemble_too_many_args_witness :
  op_wide 3 ∈ [op_hlt 0; op_wide 3] ∧ 3 < length (args (op_wide 3))
  ∧ disassemble 1 0 2 code_loop [op_hlt 0; op_wide 3] = None.
Proof.
  assert (op_wide 3 ∈ [op_hlt 0; op_wide 3]) as Hin.
  { apply elem_of_cons. right. apply elem_of_cons. by left. }
  split; [exact Hin|]. split; [simpl; lia|].
  apply (disassemble_too_many_args 1 0 2 code_loop _ (op_wide 3) Hin).
  simpl. lia.
Defined.

Lemma prog_a_renderable : Forall (renderable 1 0 2 code_loop) prog_a.
Proof. by_compute. Defined.

Lemma disassemble_lines_witness :
  Forall (renderable 1 0 2 code_loop) prog_a
  ∧ ∃ lines, length lines = 4
      ∧ disassemble 1 0 2 code_loop prog_a
        = Some ("<" +:+ String.concat EmptyString lines +:+ ">").
Proof.
  split; [exact prog_a_renderable|].
  destruct (disassemble_lines 1 0 2 code_loop prog_a prog_a_renderable)
    as (lines & Hl & Hlabel).
  exists lines. split; [|exact Hlabel].
  symmetry. exact (Forall2_length _ _ _ Hl).
Defined.

Lemma graph_spec_witness :
  prog_a ≠ [] ∧ Forall jumps_decoded prog_a
  ∧ Forall (renderable 1 0 2 code_loop) prog_a
  ∧ ∃ res (ls : list (list string)), cfg 1 imm_arg prog_a = Some res
      ∧ Forall2 (λ blk l, length l = length blk) (r_blocks res) ls.
Proof.
  split; [discriminate|]. split; [exact prog_a_decoded|].
  split; [exact prog_a_renderable|].
  destruct (graph_spec 1 0 2 code_loop imm_arg prog_a)
    as (res & ls & Hres & _ & Hls & _);
    [discriminate|exact prog_a_decoded|exact prog_a_renderable|].
  exists res, ls. split; [exact Hres|exact Hls].
Defined.
